(** * Solar-System: the orbit model and the frame updater of solarsystem.py

    A shallow embedding of the animation script.  Python floats and numpy
    float64 values are modelled by the real numbers [R]: every statement
    below is about the closed-form kinematics the script evaluates, and
    rounding is outside the model.  What floating point adds that the reals
    lack is kept as an explicit outcome of each computation:

    - a Python [float / int] or [float / float] division by zero raises
      [ZeroDivisionError];
    - an index outside a numpy array raises [IndexError];
    - a numpy division by zero or a numpy square root of a negative number
      does not raise: it yields inf or nan (with a RuntimeWarning), values
      that have no counterpart in [R]; they are written [Fault NonFinite].
      In the scene builder, where a nan only ends up in the points of an
      orbit curve, it is carried along as a value and the builder goes on, as
      the script does.  In the frame updater, where the script would store
      inf or nan in a disc centre and go on, the model follows the call no
      further; the statements below about calls that return are not
      concerned.

    Python integers (frame index, periods, moon counts) are [Z].

    Where a statement of the specification is about the values the program
    stores being equal, the real numbers say too much: module [F64] holds the
    same formulas over IEEE binary64, and the statements that fail there are
    refuted there. *)

From Stdlib Require Import QArith Floats.
From Stdlib Require Uint63.
From Stdlib Require Import Reals Lra Lia ZArith List String.
From stdpp Require Import base list.
Import ListNotations.

#[local] Set Warnings "-inexact-float".

Local Open Scope string_scope.
Local Open Scope Z_scope.
Local Open Scope list_scope.
Local Open Scope R_scope.

(** ** Outcomes of a computation *)

Inductive fault : Set :=
| ZeroDivisionError
| IndexError
| NonFinite.

Inductive outcome (A : Type) : Type :=
| Done (v : A)
| Fault (f : fault).

Arguments Done {A} v.
Arguments Fault {A} f.

Definition bind {A B : Type} (m : outcome A) (k : A -> outcome B) : outcome B :=
  match m with
  | Done v => k v
  | Fault f => Fault f
  end.

Notation "x <- m ;; k" := (bind m (fun x => k))
  (at level 62, m at next level, right associativity).

(** A [for] loop that builds a list, stopping at the first fault. *)
Fixpoint for_each {A B : Type} (f : A -> outcome B) (l : list A) : outcome (list B) :=
  match l with
  | [] => Done []
  | x :: l' => y <- f x ;; ys <- for_each f l' ;; Done (y :: ys)
  end.

(** Applies [f] to the value of a computation; a nan stays a nan. *)
Definition outcome_map {A B : Type} (f : A -> B) (m : outcome A) : outcome B :=
  match m with
  | Done v => Done (f v)
  | Fault e => Fault e
  end.

(** ** Arithmetic primitives *)

(** Python [x / y] on floats and ints. *)
Definition py_div (x y : R) : outcome R :=
  if Req_dec_T y 0 then Fault ZeroDivisionError else Done (x / y).

(** [x / y] where [y] is a numpy float64. *)
Definition np_div (x y : R) : outcome R :=
  if Req_dec_T y 0 then Fault NonFinite else Done (x / y).

(** [np.sqrt(x)]. *)
Definition np_sqrt (x : R) : outcome R :=
  if Rlt_dec x 0 then Fault NonFinite else Done (sqrt x).

(** [a[i]] on a numpy array, for [i] a non-negative index. *)
Definition index (l : list R) (i : nat) : outcome R :=
  match l !! i with
  | Some v => Done v
  | None => Fault IndexError
  end.

(** [np.linspace(lo, hi, n)]. *)
Definition linspace (lo hi : R) (n : nat) : list R :=
  map (fun k => lo + (hi - lo) * INR k / INR (n - 1)) (seq 0 n).

(** ** Data model *)

(** One row of [planet_data]:
    name, orbital radius, size, color, orbital period (frames), eccentricity, moons. *)
Record descriptor : Type := mk_descriptor {
  d_name : string;
  d_r : R;
  d_size : R;
  d_color : string;
  d_period : Z;
  d_e : R;
  d_num_moons : Z
}.

Definition planet_data : list descriptor :=
  [ mk_descriptor "Mercury" 1.5 0.08 "darkgoldenrod" 88 0.2 0;
    mk_descriptor "Venus" 2.2 0.12 "bisque" 225 0.01 0;
    mk_descriptor "Earth" 3.0 0.13 "dodgerblue" 365 0.02 1;
    mk_descriptor "Mars" 3.8 0.11 "tomato" 687 0.09 2;
    mk_descriptor "Jupiter" 5.5 0.25 "burlywood" 4333 0.05 4;
    mk_descriptor "Saturn" 7.0 0.22 "navajowhite" 10759 0.06 3;
    mk_descriptor "Uranus" 8.2 0.18 "lightcyan" 30687 0.05 2;
    mk_descriptor "Neptune" 9.5 0.17 "royalblue" 60190 0.01 1 ].

(** [plt.Circle(center, radius, ...)]: the mutable part is [center]. *)
Record Circle : Type := mk_Circle {
  center : R * R;
  get_radius : R
}.

(** [ax.text(x, y, text, ...)]: the mutable part is the position. *)
Record Text : Type := mk_Text {
  get_position : R * R;
  get_text : string
}.

(** An entry [(moon, moon_orbit_radius, moon_period)] of [planet_moons]. *)
Record moon_entry : Type := mk_moon {
  moon : Circle;
  moon_orbit_radius : R;
  moon_period : Z
}.

(** An entry [(planet_circle, label, a, e, period, planet_moons)] of [planets]. *)
Record planet_entry : Type := mk_planet {
  circle : Circle;
  label : Text;
  p_a : R;
  p_e : R;
  p_period : Z;
  planet_moons : list moon_entry
}.

(** The module-level state the animation callback reads and mutates.  The
    global list [moons] of the script holds the very objects stored in the
    [planet_moons] of each planet, in the same order; it is read only to
    build the return value, so it is derived here ([moons]). *)
Record scene : Type := mk_scene {
  planets : list planet_entry;
  x_stars : list R;
  y_stars : list R
}.

Definition moons (s : scene) : list moon_entry :=
  concat (map planet_moons (planets s)).

(** ** Scene builder *)

(** Lines 34-41: the orbit curve of one planet, 300 points.  Only the
    division of line 36 can raise.  For an eccentricity beyond 1 in absolute
    value [np.sqrt] gives nan: the semi-minor axis [b] and the [y] of every
    point are then nan, and the script goes on. *)
Definition orbit_curve (d : descriptor) : outcome (list (R * outcome R)) :=
  a <- py_div (d_r d) (1 - d_e d) ;;
  let b := outcome_map (fun s => a * s) (np_sqrt (1 - d_e d ^ 2)) in
  let theta := linspace 0 (2 * PI) 300 in
  Done (map (fun t => (a * cos t - a * d_e d, outcome_map (fun b => b * sin t) b)) theta).

(** Lines 70-76: the moons of one planet. *)
Definition build_moons (size : R) (num_moons : Z) : list moon_entry :=
  map (fun j : nat =>
         let moon_size := size * 0.3 in
         let moon_orbit_radius := size * 2.5 in
         mk_moon (mk_Circle (0, 0) (moon_size * 0.5))
                 moon_orbit_radius
                 (20 * (Z.of_nat j + 1))%Z)
      (seq 0 (Z.to_nat num_moons)).

(** Lines 58-79: one iteration of the loop that fills [planets]. *)
Definition build_planet (d : descriptor) : outcome planet_entry :=
  a <- py_div (d_r d) (1 - d_e d) ;;
  let planet_circle := mk_Circle (0, 0) (d_size d) in
  let label := mk_Text (0, 0) (d_name d) in
  let planet_moons := build_moons (d_size d) (d_num_moons d) in
  Done (mk_planet planet_circle label a (d_e d) (d_period d) planet_moons).

(** The script up to the animation: the star arrays come from the seeded
    random generator and are taken as given. *)
Definition build_scene (table : list descriptor) (xs ys : list R) : outcome scene :=
  _ <- for_each orbit_curve table ;;
  ps <- for_each build_planet table ;;
  Done (mk_scene ps xs ys).

(** ** Orbit model *)

(** Line 95: [angle = 2 * np.pi * frame / period]. *)
Definition orbit_angle (frame period : Z) : outcome R :=
  py_div (2 * PI * IZR frame) (IZR period).

(** Lines 95-98. *)
Definition planet_position (frame : Z) (a e : R) (period : Z) : outcome (R * R) :=
  angle <- orbit_angle frame period ;;
  r <- np_div (a * (1 - e ^ 2)) (1 + e * cos angle) ;;
  let x := r * cos angle - a * e in
  let y := r * sin angle in
  Done (x, y).

(** Lines 106-108, for a parent at [(x, y)]. *)
Definition moon_position (frame : Z) (xy : R * R) (moon_orbit_radius : R)
    (moon_period : Z) : outcome (R * R) :=
  let '(x, y) := xy in
  moon_angle <- orbit_angle frame moon_period ;;
  let moon_x := x + moon_orbit_radius * cos moon_angle in
  let moon_y := y + moon_orbit_radius * sin moon_angle in
  Done (moon_x, moon_y).

(** ** Frame updater *)

Definition set_center (c : Circle) (xy : R * R) : Circle :=
  mk_Circle xy (get_radius c).

Definition set_position (t : Text) (xy : R * R) : Text :=
  mk_Text xy (get_text t).

(** Lines 105-109, one moon. *)
Definition update_moon (frame : Z) (xy : R * R) (m : moon_entry) : outcome moon_entry :=
  mxy <- moon_position frame xy (moon_orbit_radius m) (moon_period m) ;;
  Done (mk_moon (set_center (moon m) mxy) (moon_orbit_radius m) (moon_period m)).

(** Lines 92-109, one planet. *)
Definition update_planet (frame : Z) (p : planet_entry) : outcome planet_entry :=
  xy <- planet_position frame (p_a p) (p_e p) (p_period p) ;;
  let '(x, y) := xy in
  let circle' := set_center (circle p) (x, y) in
  let label' := set_position (label p) (x, y + get_radius circle' + 0.1) in
  ms <- for_each (update_moon frame (x, y)) (planet_moons p) ;;
  Done (mk_planet circle' label' (p_a p) (p_e p) (p_period p) ms).

(** Lines 114-116, the body of the star loop at index [i]: both arrays are
    updated in place, and line 116 reads [x_stars[i]] after line 115 wrote it. *)
Definition drift_star (i : nat) (xs ys : list R) : outcome (list R * list R) :=
  (* line 114 *)
  x0 <- index xs i ;;
  y0 <- index ys i ;;
  distance <- np_sqrt (x0 ^ 2 + y0 ^ 2) ;;
  (* line 115 *)
  x1 <- index xs i ;;
  y1 <- index ys i ;;
  dx <- np_div (0.001 * (12 - distance) * (- y1)) (distance + 0.1) ;;
  let xs' := <[i := x1 + dx]> xs in
  (* line 116 *)
  y2 <- index ys i ;;
  x2 <- index xs' i ;;
  dy <- np_div (0.001 * (12 - distance) * x2) (distance + 0.1) ;;
  let ys' := <[i := y2 + dy]> ys in
  Done (xs', ys').

(** Lines 113-116: [for i in range(len(x_stars))]. *)
Fixpoint drift_loop (range : list nat) (xs ys : list R) : outcome (list R * list R) :=
  match range with
  | [] => Done (xs, ys)
  | i :: range' =>
      st <- drift_star i xs ys ;;
      drift_loop range' (fst st) (snd st)
  end.

(** Lines 112-116. *)
Definition drift (frame : Z) (xs ys : list R) : outcome (list R * list R) :=
  if (frame mod 5 =? 0)%Z
  then drift_loop (seq 0 (length xs)) xs ys
  else Done (xs, ys).

(** Lines 90-118: the state after the call.  When the call raises, the
    objects mutated before the fault keep their new values in the script; the
    model keeps the fault only. *)
Definition update (frame : Z) (s : scene) : outcome scene :=
  ps <- for_each (update_planet frame) (planets s) ;;
  st <- drift frame (x_stars s) (y_stars s) ;;
  Done (mk_scene ps (fst st) (snd st)).

(** Line 118: the artists handed back to the renderer. *)
Definition returned_artists (s : scene) : list Circle :=
  map circle (planets s) ++ map moon (moons s).

(** The render driver calls [update] once per tick, in the order of [frames]. *)
Fixpoint run (frames : list Z) (s : scene) : outcome scene :=
  match frames with
  | [] => Done s
  | f :: frames' => s' <- update f s ;; run frames' s'
  end.

(** ** Closed forms

    What the monadic definitions above compute when no fault occurs; the
    lemmas further down relate the two. *)

Definition angle_at (frame period : Z) : R := 2 * PI * IZR frame / IZR period.

Definition ellipse_point (a e t : R) : R * R :=
  let r := a * (1 - e ^ 2) / (1 + e * cos t) in
  (r * cos t - a * e, r * sin t).

Definition dist (p q : R * R) : R :=
  sqrt ((fst p - fst q) ^ 2 + (snd p - snd q) ^ 2).

Definition moved_moon (frame : Z) (xy : R * R) (m : moon_entry) : moon_entry :=
  let t := angle_at frame (moon_period m) in
  mk_moon (set_center (moon m)
             (fst xy + moon_orbit_radius m * cos t, snd xy + moon_orbit_radius m * sin t))
          (moon_orbit_radius m) (moon_period m).

Definition moved_planet (frame : Z) (p : planet_entry) : planet_entry :=
  let xy := ellipse_point (p_a p) (p_e p) (angle_at frame (p_period p)) in
  mk_planet (set_center (circle p) xy)
            (set_position (label p) (fst xy, snd xy + get_radius (circle p) + 0.1))
            (p_a p) (p_e p) (p_period p)
            (map (moved_moon frame xy) (planet_moons p)).

(** The coefficient of the star drift at distance [d] from the origin. *)
Definition drift_coeff (d : R) : R := 0.001 * (12 - d) / (d + 0.1).

(** One star after lines 114-116: the new [y] is computed from the new [x]. *)
Definition drifted (xy : R * R) : R * R :=
  let d := sqrt (fst xy ^ 2 + snd xy ^ 2) in
  let k := drift_coeff d in
  let x' := fst xy - k * snd xy in
  (x', snd xy + k * x').

(** The step as the specification words it: with [d] the distance before the
    step and [k = 0.001*(12 - d)/(d + 0.1)], the star at [(x, y)] moves to
    [(x - k*y, y + k*x)], both deltas from the position before the step. *)
Definition spec_drifted (xy : R * R) : R * R :=
  let d := sqrt (fst xy ^ 2 + snd xy ^ 2) in
  let k := 0.001 * (12 - d) / (d + 0.1) in
  (fst xy - k * snd xy, snd xy + k * fst xy).

(** The two star arrays after lines 113-116, when they have the same length. *)
Definition drifted_stars (xs ys : list R) : list R * list R :=
  let st := map drifted (combine xs ys) in
  (map fst st, map snd st).

(** The two star arrays after lines 112-116. *)
Definition stars_after (frame : Z) (xs ys : list R) : list R * list R :=
  if (frame mod 5 =? 0)%Z then drifted_stars xs ys else (xs, ys).

(** The scene after one call of [update] that meets no fault. *)
Definition moved_scene (frame : Z) (s : scene) : scene :=
  let st := stars_after frame (x_stars s) (y_stars s) in
  mk_scene (map (moved_planet frame) (planets s)) (fst st) (snd st).

(** The orbit parameters of a planet and of a moon: what [update] only reads. *)
Definition orbit_params (p : planet_entry) : R * R * Z :=
  (p_a p, p_e p, p_period p).

Definition moon_params (m : moon_entry) : R * Z :=
  (moon_orbit_radius m, moon_period m).

Definition planet_static (p : planet_entry) : R * R * Z * list (R * Z) :=
  (orbit_params p, map moon_params (planet_moons p)).

(** Scenes on which [update] meets no fault. *)
Definition wf_planet (p : planet_entry) : Prop :=
  p_period p <> 0%Z /\ -1 < p_e p < 1 /\
  Forall (fun m => moon_period m <> 0%Z) (planet_moons p).

Definition wf_scene (s : scene) : Prop :=
  Forall wf_planet (planets s) /\ length (x_stars s) = length (y_stars s).

(** The planet entry the scene builder makes of a descriptor whose
    eccentricity is not 1. *)
Definition built_planet (d : descriptor) : planet_entry :=
  mk_planet (mk_Circle (0, 0) (d_size d)) (mk_Text (0, 0) (d_name d))
            (d_r d / (1 - d_e d)) (d_e d) (d_period d)
            (build_moons (d_size d) (d_num_moons d)).

(** The scene the script animates, for star arrays [xs] and [ys]. *)
Definition table_scene (xs ys : list R) : scene :=
  mk_scene (map built_planet planet_data) xs ys.






(** ** The rest of the script *)

(** Lines 45-53: the Sun, and the radius of the glow disc drawn for the
    opacity [alpha]; the three glow discs are drawn for 0.3, 0.2 and 0.1. *)
Definition sun_radius : R := 0.4.

Definition glow_radius (alpha : R) : R := sun_radius + (1 - alpha) * 0.5.

Definition sun_discs : list Circle :=
  mk_Circle (0, 0) sun_radius
  :: map (fun alpha => mk_Circle (0, 0) (glow_radius alpha)) [0.3; 0.2; 0.1].

(** Lines 121-122: the axis limits, and the points they show. *)
Definition xlim : R * R := (-11, 11).

Definition ylim : R * R := (-11, 11).

Definition visible (p : R * R) : Prop :=
  fst xlim < fst p < snd xlim /\ fst ylim < snd p < snd ylim.

(** The points of the ellipse with semi-axes [a] (along x) and [b] (along
    y) and centre [(cx, 0)], in a form free of divisions. *)
Definition on_ellipse (cx a b : R) (p : R * R) : Prop :=
  b ^ 2 * (fst p - cx) ^ 2 + a ^ 2 * snd p ^ 2 = a ^ 2 * b ^ 2.

(** Reflection in the x axis. *)
Definition mirror (p : R * R) : R * R := (fst p, - snd p).

(** The number of calls in [frames] that take the branch of line 112. *)
Fixpoint drift_calls (frames : list Z) : nat :=
  match frames with
  | [] => 0%nat
  | f :: frames' =>
      ((if (f mod 5 =? 0)%Z then 1 else 0) + drift_calls frames')%nat
  end.

(** What lines 92-109 need of a planet entry to return at [frame]. *)
Definition can_update (frame : Z) (p : planet_entry) : Prop :=
  (exists xy, planet_position frame (p_a p) (p_e p) (p_period p) = Done xy) /\
  Forall (fun m => moon_period m <> 0%Z) (planet_moons p).

(** What [update] never writes: the radius of a disc, the text of a label,
    the orbit parameters. *)
Definition moon_fixed (m : moon_entry) : R * R * Z :=
  (get_radius (moon m), moon_orbit_radius m, moon_period m).

Definition planet_fixed (p : planet_entry) : R * string * (R * R * Z) * list (R * R * Z) :=
  (get_radius (circle p), get_text (label p), orbit_params p,
   map moon_fixed (planet_moons p)).

(** ** The same formulas over binary64

    Python floats and numpy float64 are IEEE binary64, which the primitive
    floats are; every operation below rounds as the script's does.  [e**2]
    is taken as [e * e].  Frame and period are converted exactly (they are
    far below 2^53).  Of [np.cos] and [np.sin] only the values at the two
    arguments used below are given: 0.0, and 6.283185307179586, the double
    nearest to 2*pi, where numpy returns 1.0 and -2.4492935982947064e-16. *)
Module F64.

Local Open Scope float_scope.

Definition of_int (z : Z) : float :=
  if (z <? 0)%Z then - of_uint63 (Uint63.of_Z (- z)) else of_uint63 (Uint63.of_Z z).

(** [np.pi]. *)
Definition pi : float := 3.141592653589793.

Definition np_cos (t : float) : option float :=
  if t =? 0 then Some 1
  else if t =? 6.283185307179586 then Some 1
  else None.

Definition np_sin (t : float) : option float :=
  if t =? 0 then Some 0
  else if t =? 6.283185307179586 then Some (-2.4492935982947064e-16)
  else None.

(** Line 60. *)
Definition semi_major (r e : float) : float := r / (1 - e).

(** Line 73. *)
Definition moon_orbit_radius (size : float) : float := size * 2.5.

(** Line 95. *)
Definition orbit_angle (frame period : Z) : float :=
  2 * pi * of_int frame / of_int period.

(** Lines 95-98. *)
Definition planet_position (frame : Z) (a e : float) (period : Z) : option (float * float) :=
  let angle := orbit_angle frame period in
  match np_cos angle, np_sin angle with
  | Some c, Some s =>
      let r := a * (1 - e * e) / (1 + e * c) in
      let x := r * c - a * e in
      let y := r * s in
      Some (x, y)
  | _, _ => None
  end.

(** Lines 106-108. *)
Definition moon_position (frame : Z) (xy : float * float) (moon_orbit_radius : float)
    (moon_period : Z) : option (float * float) :=
  let moon_angle := orbit_angle frame moon_period in
  match np_cos moon_angle, np_sin moon_angle with
  | Some c, Some s =>
      let moon_x := fst xy + moon_orbit_radius * c in
      let moon_y := snd xy + moon_orbit_radius * s in
      Some (moon_x, moon_y)
  | _, _ => None
  end.

(** The rational number a finite float stands for. *)
Definition to_Q (f : float) : Q :=
  match Prim2SF f with
  | S754_finite sign m e =>
      ((if sign then -1 else 1) * inject_Z (Zpos m) * Qpower 2 e)%Q
  | _ => 0%Q
  end.

(** The square of the Euclidean distance of two stored points, as the
    rational number it is. *)
Definition sq_dist (p q : float * float) : Q :=
  ((to_Q (fst p) - to_Q (fst q)) * (to_Q (fst p) - to_Q (fst q))
   + (to_Q (snd p) - to_Q (snd q)) * (to_Q (snd p) - to_Q (snd q)))%Q.

End F64.

(** Opens the binds of a computation known to return. *)
Ltac bind_inversion H :=
  repeat match type of H with
         | bind ?m _ = Done _ =>
             let E := fresh "E" in
             destruct m eqn:E; [cbn [bind] in H | discriminate H]
         end.

(** Closes a goal about one row of the table: names a = r/(1-e) and hands
    a*(1-e) = r to linear arithmetic. *)
Ltac table_row :=
  cbn [d_r d_e d_size d_period d_num_moons];
  match goal with
  | |- context [?r / (1 - ?e)] =>
      let a := fresh "a" in
      let Ha := fresh "Ha" in
      assert (Ha : r / (1 - e) * (1 - e) = r)
        by (unfold Rdiv; rewrite Rmult_assoc, Rinv_l by lra; lra);
      set (a := r / (1 - e)) in *;
      repeat split; lra
  end.

(** Closes [NoDup l] for a list of distinct literals. *)
Ltac nodup_literals :=
  apply NoDup_ListNoDup;
  repeat (constructor; [simpl; intuition discriminate |]);
  constructor.

(** ** Lemmas on outcomes and primitives *)

Lemma py_div_nonzero (x y : R) : y <> 0 -> py_div x y = Done (x / y).
Proof. intros Hy. unfold py_div. destruct (Req_dec_T y 0); [contradiction | reflexivity]. Qed.

Lemma py_div_zero (x : R) : py_div x 0 = Fault ZeroDivisionError.
Proof. unfold py_div. destruct (Req_dec_T 0 0); [reflexivity | contradiction]. Qed.

Lemma np_div_nonzero (x y : R) : y <> 0 -> np_div x y = Done (x / y).
Proof. intros Hy. unfold np_div. destruct (Req_dec_T y 0); [contradiction | reflexivity]. Qed.

Lemma np_sqrt_nonneg (x : R) : 0 <= x -> np_sqrt x = Done (sqrt x).
Proof. intros Hx. unfold np_sqrt. destruct (Rlt_dec x 0); [lra | reflexivity]. Qed.

Lemma for_each_map {A B : Type} (f : A -> outcome B) (g : A -> B) (l : list A) :
  Forall (fun x => f x = Done (g x)) l -> for_each f l = Done (map g l).
Proof.
  induction 1 as [| x l Hx _ IH]; simpl.
  - reflexivity.
  - rewrite Hx. simpl. rewrite IH. reflexivity.
Qed.


Lemma for_each_Forall2 {A B : Type} (f : A -> outcome B) (l : list A) (l' : list B) :
  for_each f l = Done l' -> Forall2 (fun x y => f x = Done y) l l'.
Proof.
  revert l'. induction l as [| x l IH]; simpl; intros l' H.
  - inversion H. constructor.
  - destruct (f x) as [y |] eqn:Hx; simpl in H; [| discriminate].
    destruct (for_each f l) as [ys |] eqn:Hl; simpl in H; [| discriminate].
    inversion H; subst. constructor; auto.
Qed.

Lemma IZR_nonzero (z : Z) : z <> 0%Z -> IZR z <> 0.
Proof. intros Hz Heq. apply Hz. apply eq_IZR. exact Heq. Qed.

Lemma orbit_angle_nonzero (frame period : Z) :
  period <> 0%Z -> orbit_angle frame period = Done (angle_at frame period).
Proof. intros Hp. unfold orbit_angle. apply py_div_nonzero, IZR_nonzero, Hp. Qed.

Lemma orbit_angle_zero (frame : Z) : orbit_angle frame 0 = Fault ZeroDivisionError.
Proof. unfold orbit_angle. apply py_div_zero. Qed.

(** ** The radial denominator *)

Lemma denominator_lower_bound (e t : R) : 0 <= e -> 1 - e <= 1 + e * cos t.
Proof.
  intros He. pose proof (COS_bound t) as [Hlo _].
  assert (0 <= e * (cos t + 1)) by (apply Rmult_le_pos; lra). lra.
Qed.

Lemma denominator_positive (e t : R) : -1 < e < 1 -> 0 < 1 + e * cos t.
Proof.
  intros He. pose proof (COS_bound t) as [Hlo Hhi].
  destruct (Rle_lt_dec 0 e) as [Hpos | Hneg].
  - assert (0 <= e * (cos t + 1)) by (apply Rmult_le_pos; lra). lra.
  - assert (0 <= (- e) * (1 - cos t)) by (apply Rmult_le_pos; lra). lra.
Qed.

Lemma planet_position_closed (frame : Z) (a e : R) (period : Z) :
  period <> 0%Z -> -1 < e < 1 ->
  planet_position frame a e period = Done (ellipse_point a e (angle_at frame period)).
Proof.
  intros Hp He. unfold planet_position.
  rewrite orbit_angle_nonzero by assumption. simpl.
  rewrite np_div_nonzero.
  - reflexivity.
  - pose proof (denominator_positive e (angle_at frame period) He). lra.
Qed.


(** ** The frame updater on a well-formed scene *)

Lemma update_moon_closed (frame : Z) (xy : R * R) (m : moon_entry) :
  moon_period m <> 0%Z -> update_moon frame xy m = Done (moved_moon frame xy m).
Proof.
  intros Hm. unfold update_moon, moon_position. destruct xy as [x y].
  rewrite orbit_angle_nonzero by assumption. reflexivity.
Qed.

Lemma update_planet_closed (frame : Z) (p : planet_entry) :
  wf_planet p -> update_planet frame p = Done (moved_planet frame p).
Proof.
  intros (Hp & He & Hms). unfold update_planet, moved_planet.
  rewrite planet_position_closed by assumption. cbn [bind].
  destruct (ellipse_point (p_a p) (p_e p) (angle_at frame (p_period p))) as [x y].
  cbn [fst snd].
  rewrite (for_each_map _ (moved_moon frame (x, y))).
  - reflexivity.
  - eapply Forall_impl; [exact Hms |]. intros m Hm. apply update_moon_closed, Hm.
Qed.

Lemma moved_planet_params (frame : Z) (p : planet_entry) :
  orbit_params (moved_planet frame p) = orbit_params p /\
  map moon_params (planet_moons (moved_planet frame p)) = map moon_params (planet_moons p).
Proof.
  split; [reflexivity |]. simpl. rewrite map_map. reflexivity.
Qed.

Lemma moved_planet_wf (frame : Z) (p : planet_entry) :
  wf_planet p -> wf_planet (moved_planet frame p).
Proof.
  intros (Hp & He & Hms). repeat split; simpl; try assumption; try lra.
  apply Forall_map. eapply Forall_impl; [exact Hms |]. intros m Hm. exact Hm.
Qed.

(** ** The star loop *)

Lemma insert_at_length {A : Type} (l1 l2 : list A) (x v : A) (i : nat) :
  i = length l1 -> <[i := v]> (l1 ++ x :: l2) = l1 ++ v :: l2.
Proof.
  intros ->. induction l1 as [| h t IH]; simpl; [reflexivity | f_equal; exact IH].
Qed.

Lemma index_at_length (l1 l2 : list R) (x : R) (i : nat) :
  i = length l1 -> index (l1 ++ x :: l2) i = Done x.
Proof. intros Hi. unfold index. rewrite list_lookup_middle by exact Hi. reflexivity. Qed.

Lemma sum_squares_nonneg (x y : R) : 0 <= x ^ 2 + y ^ 2.
Proof. nra. Qed.

Lemma drift_divisor_bound (x y : R) : 0.1 <= sqrt (x ^ 2 + y ^ 2) + 0.1.
Proof. pose proof (sqrt_pos (x ^ 2 + y ^ 2)). lra. Qed.

Lemma drift_star_at_length (px sx py sy : list R) (x y : R) (i : nat) :
  i = length px -> i = length py ->
  drift_star i (px ++ x :: sx) (py ++ y :: sy)
  = Done (px ++ fst (drifted (x, y)) :: sx, py ++ snd (drifted (x, y)) :: sy).
Proof.
  intros Hx Hy. unfold drift_star.
  rewrite !(index_at_length px) by exact Hx.
  rewrite !(index_at_length py) by exact Hy. cbn [bind].
  rewrite np_sqrt_nonneg by apply sum_squares_nonneg. cbn [bind].
  pose proof (drift_divisor_bound x y) as Hd.
  rewrite np_div_nonzero by lra. cbn [bind].
  rewrite (insert_at_length px) by exact Hx.
  rewrite (index_at_length px) by exact Hx. cbn [bind].
  rewrite np_div_nonzero by lra. cbn [bind].
  rewrite (insert_at_length py) by exact Hy.
  unfold drifted, drift_coeff. cbn [fst snd].
  do 3 f_equal; f_equal; field; lra.
Qed.

Lemma drift_loop_from (sx : list R) :
  forall (px py sy : list R),
    length px = length py -> length sx = length sy ->
    drift_loop (seq (length px) (length sx)) (px ++ sx) (py ++ sy)
    = Done (px ++ fst (drifted_stars sx sy), py ++ snd (drifted_stars sx sy)).
Proof.
  induction sx as [| x sx IH]; intros px py sy Hp Hs.
  - destruct sy; [| discriminate]. reflexivity.
  - destruct sy as [| y sy]; [discriminate |]. injection Hs as Hs.
    cbn [length seq drift_loop].
    rewrite (drift_star_at_length px sx py sy x y) by congruence. cbn [bind fst snd].
    change (px ++ ?v :: sx) with (px ++ [v] ++ sx).
    change (py ++ ?v :: sy) with (py ++ [v] ++ sy).
    rewrite !app_assoc.
    replace (S (length px)) with (length (px ++ [fst (drifted (x, y))]))
      by (rewrite length_app; simpl; lia).
    rewrite IH; [| rewrite !length_app; simpl; lia | exact Hs].
    unfold drifted_stars. cbn [combine map fst snd].
    rewrite <- !app_assoc. reflexivity.
Qed.

Lemma drift_loop_closed (xs ys : list R) :
  length xs = length ys ->
  drift_loop (seq 0 (length xs)) xs ys = Done (drifted_stars xs ys).
Proof.
  intros Hlen. pose proof (drift_loop_from xs [] [] ys eq_refl Hlen) as H.
  simpl in H. rewrite H. unfold drifted_stars. reflexivity.
Qed.

Lemma drift_closed (frame : Z) (xs ys : list R) :
  length xs = length ys -> drift frame xs ys = Done (stars_after frame xs ys).
Proof.
  intros Hlen. unfold drift, stars_after.
  destruct (frame mod 5 =? 0)%Z; [apply drift_loop_closed, Hlen | reflexivity].
Qed.

Lemma drifted_stars_length (xs ys : list R) :
  length xs = length ys ->
  length (fst (drifted_stars xs ys)) = length xs /\
  length (snd (drifted_stars xs ys)) = length ys.
Proof.
  intros Hlen. unfold drifted_stars. simpl.
  rewrite !length_map, length_combine. lia.
Qed.

Lemma stars_after_length (frame : Z) (xs ys : list R) :
  length xs = length ys ->
  length (fst (stars_after frame xs ys)) = length (snd (stars_after frame xs ys)).
Proof.
  intros Hlen. unfold stars_after. destruct (frame mod 5 =? 0)%Z; [| exact Hlen].
  destruct (drifted_stars_length xs ys Hlen) as [H1 H2]. congruence.
Qed.

(** ** One tick and a run of ticks *)

Lemma update_closed (frame : Z) (s : scene) :
  wf_scene s -> update frame s = Done (moved_scene frame s).
Proof.
  intros [Hps Hlen]. unfold update.
  rewrite (for_each_map _ (moved_planet frame)).
  - simpl. rewrite drift_closed by exact Hlen. reflexivity.
  - eapply Forall_impl; [exact Hps |]. intros p Hp. apply update_planet_closed, Hp.
Qed.

Lemma moved_scene_wf (frame : Z) (s : scene) : wf_scene s -> wf_scene (moved_scene frame s).
Proof.
  intros [Hps Hlen]. split; simpl.
  - apply Forall_map. eapply Forall_impl; [exact Hps |].
    intros p Hp. apply moved_planet_wf, Hp.
  - apply stars_after_length, Hlen.
Qed.

Lemma moved_scene_static (frame : Z) (s : scene) :
  map planet_static (planets (moved_scene frame s)) = map planet_static (planets s).
Proof.
  simpl. rewrite map_map. apply map_ext. intros p.
  unfold planet_static. destruct (moved_planet_params frame p) as [H1 H2].
  rewrite H1, H2. reflexivity.
Qed.

Lemma run_total (frames : list Z) :
  forall s, wf_scene s ->
    exists s', run frames s = Done s' /\ wf_scene s' /\
               map planet_static (planets s') = map planet_static (planets s).
Proof.
  induction frames as [| f frames IH]; intros s Hs; simpl.
  - exists s. auto.
  - rewrite update_closed by exact Hs. simpl.
    destruct (IH _ (moved_scene_wf f s Hs)) as (s' & Hrun & Hwf & Hpar).
    exists s'. split; [exact Hrun | split; [exact Hwf |]].
    rewrite Hpar. apply moved_scene_static.
Qed.

Lemma static_orbit_params (ps qs : list planet_entry) :
  map planet_static ps = map planet_static qs ->
  map orbit_params ps = map orbit_params qs.
Proof.
  intros H. apply (f_equal (map fst)) in H. rewrite !map_map in H. exact H.
Qed.

Lemma map_eq_compose {A B C : Type} (f : A -> B) (g : B -> C) (l1 l2 : list A) :
  map f l1 = map f l2 -> map (fun x => g (f x)) l1 = map (fun x => g (f x)) l2.
Proof.
  intros H. rewrite <- (map_map f g l1), <- (map_map f g l2). rewrite H. reflexivity.
Qed.

Lemma static_moon_periods (ps qs : list planet_entry) :
  map planet_static ps = map planet_static qs ->
  map (fun p => map moon_period (planet_moons p)) ps
  = map (fun p => map moon_period (planet_moons p)) qs.
Proof.
  intros H.
  pose proof (map_eq_compose planet_static (fun t => map snd (snd t)) ps qs H) as Hc.
  simpl in Hc.
  erewrite (map_ext _ (fun p => map moon_period (planet_moons p)) _ ps) in Hc.
  erewrite (map_ext _ (fun p => map moon_period (planet_moons p)) _ qs) in Hc.
  exact Hc.
  Unshelve.
  all: intros p; simpl; rewrite map_map; reflexivity.
Qed.

(** ** The scene built from [planet_data] *)

Lemma table_eccentricity : Forall (fun d => 0 <= d_e d <= 0.2) planet_data.
Proof. unfold planet_data. repeat constructor; simpl; lra. Qed.

Lemma table_period : Forall (fun d => (0 < d_period d)%Z) planet_data.
Proof. unfold planet_data. repeat constructor; simpl; lia. Qed.

Lemma table_radius : Forall (fun d => 0 < d_r d /\ 0 < d_size d) planet_data.
Proof. unfold planet_data. repeat constructor; simpl; lra. Qed.

Lemma build_planet_closed (d : descriptor) :
  d_e d <> 1 -> build_planet d = Done (built_planet d).
Proof.
  intros He. unfold build_planet. rewrite py_div_nonzero by lra. reflexivity.
Qed.

Lemma orbit_curve_total (d : descriptor) :
  -1 < d_e d < 1 -> exists c, orbit_curve d = Done c.
Proof.
  intros He. unfold orbit_curve.
  rewrite py_div_nonzero by lra. cbn [bind].
  rewrite np_sqrt_nonneg by nra. cbn [bind]. eexists. reflexivity.
Qed.

Lemma for_each_total {A B : Type} (f : A -> outcome B) (l : list A) :
  Forall (fun x => exists v, f x = Done v) l -> exists vs, for_each f l = Done vs.
Proof.
  induction 1 as [| x l [v Hv] _ [vs IH]]; simpl.
  - eexists. reflexivity.
  - rewrite Hv, IH. simpl. eexists. reflexivity.
Qed.

Lemma build_scene_closed (table : list descriptor) (xs ys : list R) :
  Forall (fun d => -1 < d_e d < 1) table ->
  build_scene table xs ys = Done (mk_scene (map built_planet table) xs ys).
Proof.
  intros He. unfold build_scene.
  destruct (for_each_total orbit_curve table) as [cs Hcs].
  { eapply Forall_impl; [exact He |]. intros d Hd. apply orbit_curve_total, Hd. }
  rewrite Hcs. cbn [bind].
  rewrite (for_each_map _ built_planet).
  - reflexivity.
  - eapply Forall_impl; [exact He |]. intros d Hd. apply build_planet_closed. lra.
Qed.

Lemma build_moons_periods (size : R) (num_moons : Z) :
  map moon_period (build_moons size num_moons)
  = map (fun j : nat => (20 * (Z.of_nat j + 1))%Z) (seq 0 (Z.to_nat num_moons)).
Proof. unfold build_moons. rewrite map_map. reflexivity. Qed.

Lemma build_moons_nonzero (size : R) (num_moons : Z) :
  Forall (fun m => moon_period m <> 0%Z) (build_moons size num_moons).
Proof.
  unfold build_moons. apply Forall_map. apply Forall_forall.
  intros j _. simpl. lia.
Qed.

Lemma built_planet_wf (d : descriptor) :
  d_period d <> 0%Z -> -1 < d_e d < 1 -> wf_planet (built_planet d).
Proof.
  intros Hp He. unfold wf_planet. simpl.
  split; [exact Hp | split; [exact He | apply build_moons_nonzero]].
Qed.

Lemma built_scene_wf (table : list descriptor) (xs ys : list R) :
  Forall (fun d => d_period d <> 0%Z) table ->
  Forall (fun d => -1 < d_e d < 1) table ->
  length xs = length ys ->
  wf_scene (mk_scene (map built_planet table) xs ys).
Proof.
  intros Hp He Hlen. split; simpl; [| exact Hlen].
  apply Forall_map. apply Forall_forall. intros d Hd.
  rewrite Forall_forall in Hp, He. apply built_planet_wf; auto.
Qed.

Lemma table_eccentricity_open : Forall (fun d => -1 < d_e d < 1) planet_data.
Proof.
  eapply Forall_impl; [exact table_eccentricity |]. intros d Hd. simpl in Hd. lra.
Qed.

Lemma table_period_nonzero : Forall (fun d => d_period d <> 0%Z) planet_data.
Proof.
  eapply Forall_impl; [exact table_period |]. intros d Hd. simpl in Hd. lia.
Qed.

Lemma table_scene_built (xs ys : list R) :
  build_scene planet_data xs ys = Done (table_scene xs ys).
Proof. apply build_scene_closed, table_eccentricity_open. Qed.

Lemma table_scene_wf (xs ys : list R) :
  length xs = length ys -> wf_scene (table_scene xs ys).
Proof.
  intros Hlen. apply built_scene_wf;
    [exact table_period_nonzero | exact table_eccentricity_open | exact Hlen].
Qed.

Lemma stars_same_length (stars : list (R * R)) :
  length (map fst stars) = length (map snd stars).
Proof. rewrite !length_map. reflexivity. Qed.

(** The script builds its scene and animates any sequence of frames without
    a fault, and the static part of every planet stays what the builder
    made it. *)
Lemma table_run (stars : list (R * R)) (frames : list Z) :
  exists s0 s,
    build_scene planet_data (map fst stars) (map snd stars) = Done s0 /\
    run frames s0 = Done s /\ wf_scene s /\
    map planet_static (planets s) = map planet_static (map built_planet planet_data).
Proof.
  exists (table_scene (map fst stars) (map snd stars)).
  destruct (run_total frames (table_scene (map fst stars) (map snd stars)))
    as (s & Hrun & Hwf & Hst).
  { apply table_scene_wf, stars_same_length. }
  exists s. split; [apply table_scene_built | auto].
Qed.

(** ** The planet table *)

(** C1, the count the specification gives: the table does not hold seven
    descriptors. *)
Lemma planet_data_not_seven : length planet_data <> 7%nat.
Proof. simpl. discriminate. Qed.

(** C1 (amended): the planet descriptor table holds exactly eight
    descriptors, one for each modelled planet, Mercury to Neptune, no planet
    twice. *)
Theorem planet_data_eight :
  length planet_data = 8%nat /\
  map d_name planet_data
  = ["Mercury"; "Venus"; "Earth"; "Mars"; "Jupiter"; "Saturn"; "Uranus"; "Neptune"]%string /\
  NoDup (map d_name planet_data).
Proof.
  split; [reflexivity | split; [reflexivity |]].
  simpl. nodup_literals.
Qed.

(** C8: every descriptor of the table has [0 <= e < 1] and a strictly
    positive semi-major axis [a = r/(1-e)]; the scene builder succeeds on the
    table, every sequence of frames runs without a fault, and in the scene
    reached the orbit parameters of all eight planets still satisfy
    [0 <= e < 1] and [a > 0]. *)
Theorem eccentricity_and_axis_invariant :
  Forall (fun d => 0 <= d_e d < 1 /\ 0 < d_r d / (1 - d_e d)) planet_data /\
  forall (stars : list (R * R)) (frames : list Z),
    exists s0 s,
      build_scene planet_data (map fst stars) (map snd stars) = Done s0 /\
      run frames s0 = Done s /\
      length (planets s) = 8%nat /\
      Forall (fun p => 0 <= p_e p < 1 /\ 0 < p_a p) (planets s).
Proof.
  assert (Htab : Forall (fun d => 0 <= d_e d < 1 /\ 0 < d_r d / (1 - d_e d)) planet_data).
  { unfold planet_data. repeat constructor; simpl; try lra;
      apply Rdiv_lt_0_compat; lra. }
  split; [exact Htab |].
  intros stars frames.
  destruct (table_run stars frames) as (s0 & s & Hbuild & Hrun & _ & Hst).
  exists s0, s. split; [exact Hbuild | split; [exact Hrun |]].
  apply static_orbit_params in Hst.
  split.
  - apply (f_equal (@length _)) in Hst. rewrite !length_map in Hst. exact Hst.
  - assert (Hq : Forall (fun t : R * R * Z => 0 <= snd (fst t) < 1 /\ 0 < fst (fst t))
                   (map orbit_params (planets s))).
    { rewrite Hst. rewrite map_map. apply Forall_map.
      eapply Forall_impl; [exact Htab |]. intros d Hd. exact Hd. }
    apply Forall_map in Hq. eapply Forall_impl; [exact Hq |].
    intros p Hp. exact Hp.
Qed.

(** C9: in the scene built from the table, and after any sequence of
    frames, the moon at 0-based index j of a planet's moon collection has
    period 20*(j+1); the periods within one planet are pairwise distinct; the
    planets have 0, 0, 1, 2, 4, 3, 2, 1 moons. *)
Theorem moon_periods :
  forall (stars : list (R * R)) (frames : list Z),
    exists s0 s,
      build_scene planet_data (map fst stars) (map snd stars) = Done s0 /\
      run frames s0 = Done s /\
      map (fun p => length (planet_moons p)) (planets s)
      = [0; 0; 1; 2; 4; 3; 2; 1]%nat /\
      Forall (fun p =>
                map moon_period (planet_moons p)
                = map (fun j : nat => (20 * (Z.of_nat j + 1))%Z)
                      (seq 0 (length (planet_moons p))) /\
                NoDup (map moon_period (planet_moons p)))
             (planets s).
Proof.
  intros stars frames.
  destruct (table_run stars frames) as (s0 & s & Hbuild & Hrun & _ & Hst).
  exists s0, s. split; [exact Hbuild | split; [exact Hrun |]].
  apply static_moon_periods in Hst.
  assert (Hper : map (fun p => map moon_period (planet_moons p)) (planets s)
                 = [[]; []; [20]; [20; 40]; [20; 40; 60; 80]; [20; 40; 60]; [20; 40]; [20]]%Z).
  { rewrite Hst. reflexivity. }
  assert (Hlen : map (fun p => length (planet_moons p)) (planets s)
                 = [0; 0; 1; 2; 4; 3; 2; 1]%nat).
  { apply (f_equal (map (@length _))) in Hper. rewrite map_map in Hper.
    erewrite (map_ext (fun p => length (map moon_period (planet_moons p)))) in Hper
      by (intros p; rewrite length_map; reflexivity).
    exact Hper. }
  split; [exact Hlen |].
  destruct (planets s) as [| p1 [| p2 [| p3 [| p4 [| p5 [| p6 [| p7 [| p8 [| p9 l]]]]]]]]];
    try discriminate Hlen.
  simpl in Hper, Hlen.
  injection Hper as H1 H2 H3 H4 H5 H6 H7 H8.
  injection Hlen as L1 L2 L3 L4 L5 L6 L7 L8.
  repeat (constructor;
          [ split;
            [ match goal with
              | |- map moon_period (planet_moons ?p) = _ =>
                  match goal with
                  | H : map moon_period (planet_moons p) = _,
                    L : length (planet_moons p) = _ |- _ => rewrite H, L; reflexivity
                  end
              end
            | match goal with
              | |- NoDup (map moon_period (planet_moons ?p)) =>
                  match goal with
                  | H : map moon_period (planet_moons p) = _ |- _ =>
                      rewrite H; nodup_literals
                  end
              end ]
          | ]).
  constructor.
Qed.

(** ** The orbit model *)

Lemma cos_one_turn (t : R) : cos (t + 2 * PI) = cos t.
Proof. rewrite cos_plus, cos_2PI, sin_2PI. ring. Qed.

Lemma sin_one_turn (t : R) : sin (t + 2 * PI) = sin t.
Proof. rewrite sin_plus, cos_2PI, sin_2PI. ring. Qed.

Lemma angle_after_period (frame period : Z) :
  period <> 0%Z -> angle_at (frame + period) period = angle_at frame period + 2 * PI.
Proof.
  intros Hp. unfold angle_at. rewrite plus_IZR.
  field. apply IZR_nonzero, Hp.
Qed.

Lemma ellipse_point_one_turn (a e t : R) :
  ellipse_point a e (t + 2 * PI) = ellipse_point a e t.
Proof. unfold ellipse_point. rewrite cos_one_turn, sin_one_turn. reflexivity. Qed.

Lemma radial_distance_at_zero (a e : R) :
  -1 < e < 1 -> a * (1 - e ^ 2) / (1 + e * cos 0) = a * (1 - e).
Proof. intros He. rewrite cos_0. field. lra. Qed.

Lemma angle_at_frame_zero (period : Z) : angle_at 0 period = 0.
Proof. unfold angle_at. unfold Rdiv. ring. Qed.

Lemma ellipse_point_perihelion (a e : R) :
  -1 < e < 1 -> ellipse_point a e 0 = (a * (1 - e) - a * e, 0).
Proof.
  intros He. unfold ellipse_point. rewrite cos_0, sin_0.
  f_equal; field; lra.
Qed.

(** C5, as the specification states it, fails on the values the program
    computes.  Venus has period 225; at frame 225 the angle 2*pi*225/225 is
    the double 6.283185307179586, whose sine numpy gives as
    -2.4492935982947064e-16, so the stored y is not 0, while at frame 0 it is
    0: the positions at f = 0 and at f + period differ. *)
Lemma venus_orbit_not_closed_binary64 :
  exists p0 p1 : float * float,
    F64.orbit_angle (0 + 225) 225 = 6.283185307179586%float /\
    F64.planet_position 0 (F64.semi_major 2.2 0.01) 0.01 225 = Some p0 /\
    F64.planet_position (0 + 225) (F64.semi_major 2.2 0.01) 0.01 225 = Some p1 /\
    snd p0 = 0%float /\ snd p1 <> 0%float /\ p0 <> p1.
Proof.
  eexists. eexists.
  split; [vm_compute; reflexivity |].
  split; [vm_compute; reflexivity |].
  split; [vm_compute; reflexivity |].
  split; [reflexivity |].
  split.
  - cbn [snd]. intros H. apply (f_equal Prim2SF) in H. vm_compute in H. discriminate.
  - intros H. apply (f_equal (fun q => Prim2SF (snd q))) in H. vm_compute in H.
    discriminate.
Qed.

(** C5 (amended): evaluated in exact real arithmetic, the orbit model gives
    at frame f + period the position it gives at frame f, for all orbital
    parameters (a, e, period) and every frame f: the point of the formula is
    the same one full turn later, and for each planet of the table the angle
    at f + period is the angle at f plus 2*pi and both positions are the same
    point. *)
Theorem orbit_formula_closes :
  (forall a e t : R, ellipse_point a e (t + 2 * PI) = ellipse_point a e t) /\
  (forall (frame : Z) (a e : R) (period : Z),
      planet_position (frame + period) a e period = planet_position frame a e period) /\
  Forall (fun d =>
            forall frame : Z,
              exists t xy,
                orbit_angle frame (d_period d) = Done t /\
                orbit_angle (frame + d_period d) (d_period d) = Done (t + 2 * PI) /\
                planet_position frame (d_r d / (1 - d_e d)) (d_e d) (d_period d) = Done xy /\
                planet_position (frame + d_period d) (d_r d / (1 - d_e d)) (d_e d) (d_period d)
                = Done xy)
         planet_data.
Proof.
  assert (Hgen : forall (frame : Z) (a e : R) (period : Z),
             planet_position (frame + period) a e period = planet_position frame a e period).
  { intros frame a e period. destruct (Z.eq_dec period 0%Z) as [-> | Hp].
    - rewrite Z.add_0_r. reflexivity.
    - unfold planet_position. rewrite !orbit_angle_nonzero by exact Hp. cbn [bind].
      rewrite angle_after_period by exact Hp.
      rewrite cos_one_turn, sin_one_turn. reflexivity. }
  split; [exact ellipse_point_one_turn | split; [exact Hgen |]].
  pose proof table_period_nonzero as Hp. pose proof table_eccentricity_open as He.
  rewrite Forall_forall in Hp, He. apply Forall_forall. intros d Hd frame.
  exists (angle_at frame (d_period d)).
  exists (ellipse_point (d_r d / (1 - d_e d)) (d_e d) (angle_at frame (d_period d))).
  split; [apply orbit_angle_nonzero; auto |].
  split; [rewrite orbit_angle_nonzero, angle_after_period by auto; reflexivity |].
  rewrite Hgen. split; apply planet_position_closed; auto.
Qed.

(** C6: at frame 0 the orbit angle of every planet of the table is 0 and
    its position is (a(1-e) - a*e, 0) with a = r/(1-e), the radial distance
    being a(1-e^2)/(1+e) = a(1-e); for the Earth descriptor (r = 3.0,
    e = 0.02) a lies between 3.0612 and 3.0613, and the frame-0 position has
    y = 0 and x between 2.9387 and 2.9388. *)
Theorem position_at_frame_zero :
  Forall (fun d =>
            let a := d_r d / (1 - d_e d) in
            let e := d_e d in
            orbit_angle 0 (d_period d) = Done 0 /\
            a * (1 - e ^ 2) / (1 + e * cos 0) = a * (1 - e) /\
            planet_position 0 a e (d_period d) = Done (a * (1 - e) - a * e, 0))
         planet_data /\
  exists earth,
    planet_data !! 2%nat = Some earth /\
    d_name earth = "Earth"%string /\ d_r earth = 3.0 /\ d_e earth = 0.02 /\
    3.0612 < d_r earth / (1 - d_e earth) < 3.0613 /\
    exists x,
      planet_position 0 (d_r earth / (1 - d_e earth)) (d_e earth) (d_period earth)
      = Done (x, 0) /\
      x = d_r earth / (1 - d_e earth) * (1 - d_e earth)
          - d_r earth / (1 - d_e earth) * d_e earth /\
      2.9387 < x < 2.9388.
Proof.
  assert (Hzero : forall d, d_period d <> 0%Z -> -1 < d_e d < 1 ->
            planet_position 0 (d_r d / (1 - d_e d)) (d_e d) (d_period d)
            = Done (d_r d / (1 - d_e d) * (1 - d_e d) - d_r d / (1 - d_e d) * d_e d, 0)).
  { intros d Hp He. rewrite planet_position_closed by assumption.
    rewrite angle_at_frame_zero, ellipse_point_perihelion by exact He. reflexivity. }
  split.
  - pose proof table_period_nonzero as Hp. pose proof table_eccentricity_open as He.
    rewrite Forall_forall in Hp, He. apply Forall_forall. intros d Hd. cbv zeta.
    split; [| split].
    + rewrite orbit_angle_nonzero by auto. rewrite angle_at_frame_zero. reflexivity.
    + apply radial_distance_at_zero, He, Hd.
    + apply Hzero; auto.
  - eexists. split; [reflexivity |]. cbn [d_name d_r d_e d_period].
    split; [reflexivity | split; [lra | split; [lra |]]].
    assert (Ha : 3.0 / (1 - 0.02) * (1 - 0.02) = 3.0).
    { unfold Rdiv. rewrite Rmult_assoc, Rinv_l by lra. lra. }
    split; [lra |].
    eexists. split; [| split; [reflexivity |]].
    + apply (Hzero (mk_descriptor "Earth" 3.0 0.13 "dodgerblue" 365 0.02 1));
        simpl; [lia | lra].
    + lra.
Qed.

(** C10: for every descriptor of the table 1 - e is at least 0.8, and at
    every frame the orbit angle is computed without a fault, the denominator
    1 + e*cos(angle) is at least 1 - e, hence strictly positive, and the
    position computation returns a point; the divisor distance + 0.1 of the
    star drift is at least 0.1 for every star, the star at the origin
    included, and the drift of any star field returns without a fault. *)
Theorem no_division_by_zero :
  Forall (fun d =>
            0.8 <= 1 - d_e d /\
            forall frame : Z,
              exists angle,
                orbit_angle frame (d_period d) = Done angle /\
                1 - d_e d <= 1 + d_e d * cos angle /\
                0 < 1 + d_e d * cos angle /\
                exists xy,
                  planet_position frame (d_r d / (1 - d_e d)) (d_e d) (d_period d) = Done xy)
         planet_data /\
  (forall x y : R,
      exists distance,
        np_sqrt (x ^ 2 + y ^ 2) = Done distance /\ 0.1 <= distance + 0.1 /\
        forall num, np_div num (distance + 0.1) = Done (num / (distance + 0.1))) /\
  (np_sqrt (0 ^ 2 + 0 ^ 2) = Done 0 /\ drift_star 0 [0] [0] = Done ([0], [0])) /\
  (forall (frame : Z) (stars : list (R * R)),
      exists st, drift frame (map fst stars) (map snd stars) = Done st).
Proof.
  split; [| split; [| split]].
  - pose proof table_period_nonzero as Hp. pose proof table_eccentricity as He.
    rewrite Forall_forall in Hp, He. apply Forall_forall. intros d Hd.
    specialize (Hp d Hd). specialize (He d Hd). simpl in He.
    split; [lra |]. intros frame. exists (angle_at frame (d_period d)).
    split; [apply orbit_angle_nonzero, Hp |].
    pose proof (denominator_lower_bound (d_e d) (angle_at frame (d_period d))) as Hlo.
    split; [apply Hlo; lra | split; [specialize (Hlo ltac:(lra)); lra |]].
    eexists. apply planet_position_closed; [exact Hp | lra].
  - intros x y. exists (sqrt (x ^ 2 + y ^ 2)).
    pose proof (drift_divisor_bound x y) as Hd.
    split; [apply np_sqrt_nonneg, sum_squares_nonneg | split; [exact Hd |]].
    intros num. apply np_div_nonzero. lra.
  - assert (Hs : sqrt (0 ^ 2 + 0 ^ 2) = 0).
    { replace (0 ^ 2 + 0 ^ 2) with 0 by ring. apply sqrt_0. }
    split.
    + rewrite np_sqrt_nonneg by apply sum_squares_nonneg. rewrite Hs. reflexivity.
    + pose proof (drift_star_at_length [] [] [] [] 0 0 0%nat eq_refl eq_refl) as Hstar.
      cbn [app] in Hstar. rewrite Hstar.
      unfold drifted. cbn [fst snd]. rewrite Hs.
      do 3 f_equal; ring.
  - intros frame stars. eexists. apply drift_closed, stars_same_length.
Qed.

(** ** Malformed descriptors *)








(** ** The star drift *)

Lemma combine_fst_snd {A B : Type} (l : list (A * B)) :
  combine (map fst l) (map snd l) = l.
Proof. induction l as [| [a b] l IH]; simpl; [reflexivity | rewrite IH; reflexivity]. Qed.

Lemma drifted_stars_combine (xs ys : list R) :
  combine (fst (drifted_stars xs ys)) (snd (drifted_stars xs ys))
  = map drifted (combine xs ys).
Proof. unfold drifted_stars. cbn [fst snd]. apply combine_fst_snd. Qed.

Lemma stars_after_combine (frame : Z) (xs ys : list R) :
  combine (fst (stars_after frame xs ys)) (snd (stars_after frame xs ys))
  = if (frame mod 5 =? 0)%Z then map drifted (combine xs ys) else combine xs ys.
Proof.
  unfold stars_after. destruct (frame mod 5 =? 0)%Z;
    [apply drifted_stars_combine | reflexivity].
Qed.

Lemma update_stars (frame : Z) (s s' : scene) :
  length (x_stars s) = length (y_stars s) ->
  update frame s = Done s' ->
  x_stars s' = fst (stars_after frame (x_stars s) (y_stars s)) /\
  y_stars s' = snd (stars_after frame (x_stars s) (y_stars s)).
Proof.
  intros Hlen Hup. unfold update in Hup.
  destruct (for_each (update_planet frame) (planets s)) as [ps |]; [| discriminate].
  cbn [bind] in Hup. rewrite drift_closed in Hup by exact Hlen. cbn [bind] in Hup.
  injection Hup as <-. split; reflexivity.
Qed.

Lemma drift_coeff_split (d : R) :
  0 <= d -> drift_coeff d = 0.001 * (12.1 * / (d + 0.1) - 1).
Proof.
  intros Hd. unfold drift_coeff, Rdiv.
  assert (Hi : (d + 0.1) * / (d + 0.1) = 1) by (apply Rinv_r; lra).
  replace (12 - d) with (12.1 - (d + 0.1)) by lra.
  rewrite Rmult_assoc, Rmult_minus_distr_r, Hi. reflexivity.
Qed.

Lemma drift_coeff_decreasing (d1 d2 : R) :
  0 <= d1 < d2 -> drift_coeff d2 < drift_coeff d1.
Proof.
  intros [H1 H2]. rewrite !drift_coeff_split by lra.
  assert (Hinv : / (d2 + 0.1) < / (d1 + 0.1)).
  { apply Rinv_lt_contravar; [apply Rmult_lt_0_compat; lra | lra]. }
  lra.
Qed.

Lemma sqrt_of_square (x v : R) : 0 <= v -> x = v * v -> sqrt x = v.
Proof. intros Hv ->. apply sqrt_square, Hv. Qed.

Lemma drifted_0_1 : drifted (0, 1) = (-0.01, 0.9999).
Proof.
  unfold drifted, drift_coeff. cbn [fst snd].
  rewrite (sqrt_of_square (0 ^ 2 + 1 ^ 2) 1) by lra.
  assert (Hk : 0.001 * (12 - 1) / (1 + 0.1) = 0.01).
  { apply Rmult_eq_reg_r with (1 + 0.1); [| lra].
    unfold Rdiv. rewrite Rmult_assoc, Rinv_l by lra. lra. }
  rewrite Hk. f_equal; lra.
Qed.

Lemma update_single_star :
  update 0 (table_scene [0] [1]) = Done (moved_scene 0 (table_scene [0] [1])) /\
  x_stars (moved_scene 0 (table_scene [0] [1])) = [-0.01] /\
  y_stars (moved_scene 0 (table_scene [0] [1])) = [0.9999].
Proof.
  split; [apply update_closed, table_scene_wf; reflexivity |].
  unfold moved_scene, stars_after. cbn [x_stars y_stars table_scene].
  change (0 mod 5 =? 0)%Z with true. cbv iota.
  unfold drifted_stars. cbn [combine map].
  rewrite drifted_0_1. split; reflexivity.
Qed.

(** C3, as the specification states it, fails.  On frame 0, in the script's
    scene with a star at (0, 1), the star goes to (-0.01, 0.9999), whereas
    the step with both deltas taken from the position before the step gives
    (-0.01, 1).  And a star further from the centre does not always move
    less: the star at (-12, 0), at distance 12, stays where it is, while the
    star at (-12, -5), at distance 13, moves. *)
Lemma drift_reads_updated_x :
  (exists s',
      update 0 (table_scene [0] [1]) = Done s' /\
      combine (x_stars s') (y_stars s') = [(-0.01, 0.9999)] /\
      map spec_drifted (combine [0] [1]) = [(-0.01, 1)] /\
      combine (x_stars s') (y_stars s') <> map spec_drifted (combine [0] [1])) /\
  (dist (-12, 0) (0, 0) = 12 /\ dist (-12, -5) (0, 0) = 13 /\
   drifted (-12, 0) = (-12, 0) /\ drifted (-12, -5) <> (-12, -5)).
Proof.
  assert (Hspec : spec_drifted (0, 1) = (-0.01, 1)).
  { unfold spec_drifted. cbn [fst snd].
    rewrite (sqrt_of_square (0 ^ 2 + 1 ^ 2) 1) by lra.
    assert (Hk : 0.001 * (12 - 1) / (1 + 0.1) = 0.01).
    { apply Rmult_eq_reg_r with (1 + 0.1); [| lra].
      unfold Rdiv. rewrite Rmult_assoc, Rinv_l by lra. lra. }
    rewrite Hk. f_equal; lra. }
  assert (H12 : sqrt ((-12) ^ 2 + 0 ^ 2) = 12) by (apply sqrt_of_square; lra).
  assert (H13 : sqrt ((-12) ^ 2 + (-5) ^ 2) = 13) by (apply sqrt_of_square; lra).
  split; [| split; [| split; [| split]]].
  - destruct update_single_star as (Hup & Hx & Hy).
    exists (moved_scene 0 (table_scene [0] [1])).
    rewrite Hx, Hy. cbn [combine map]. rewrite Hspec.
    split; [exact Hup | split; [reflexivity | split; [reflexivity |]]].
    intros Heq. injection Heq as Hy'. lra.
  - unfold dist. cbn [fst snd]. apply sqrt_of_square; lra.
  - unfold dist. cbn [fst snd]. apply sqrt_of_square; lra.
  - unfold drifted, drift_coeff. cbn [fst snd]. rewrite H12.
    replace (12 - 12) with 0 by lra. unfold Rdiv. f_equal; ring.
  - unfold drifted. cbn [fst snd]. rewrite H13.
    rewrite drift_coeff_split by lra.
    assert (Hinv : 0 < / (13 + 0.1) < / 13).
    { split; [apply Rinv_0_lt_compat; lra |].
      apply Rinv_lt_contravar; [apply Rmult_lt_0_compat; lra | lra]. }
    assert (H13i : 13 * / 13 = 1) by (apply Rinv_r; lra).
    intros Heq. injection Heq as Hx _. lra.
Qed.

(** C3 (amended): on every frame f with f % 5 == 0, and only on those, the
    frame updater perturbs each star: with d the star's distance from the
    origin before the step and k = 0.001*(12 - d)/(d + 0.1), the star at
    (x, y) moves to (x', y') where x' = x - k*y and y' = y + k*x', the new y
    being computed from the already updated x; the perturbation is cumulative
    across applications, and the coefficient k is strictly smaller for a star
    further from the centre. *)
Theorem star_drift_step :
  (forall x y : R,
      drifted (x, y)
      = let d := sqrt (x ^ 2 + y ^ 2) in
        let k := 0.001 * (12 - d) / (d + 0.1) in
        let x' := x - k * y in
        (x', y + k * x')) /\
  (forall (frame : Z) (stars : list (R * R)),
      drift frame (map fst stars) (map snd stars)
      = Done (if (frame mod 5 =? 0)%Z
              then (map fst (map drifted stars), map snd (map drifted stars))
              else (map fst stars, map snd stars))) /\
  (forall (frame : Z) (s s' : scene),
      length (x_stars s) = length (y_stars s) ->
      update frame s = Done s' ->
      combine (x_stars s') (y_stars s')
      = if (frame mod 5 =? 0)%Z
        then map drifted (combine (x_stars s) (y_stars s))
        else combine (x_stars s) (y_stars s)) /\
  (forall (f1 f2 : Z) (s s1 s2 : scene),
      length (x_stars s) = length (y_stars s) ->
      (f1 mod 5 = 0)%Z -> (f2 mod 5 = 0)%Z ->
      update f1 s = Done s1 -> update f2 s1 = Done s2 ->
      combine (x_stars s2) (y_stars s2)
      = map drifted (map drifted (combine (x_stars s) (y_stars s)))) /\
  (forall d1 d2 : R, 0 <= d1 < d2 -> drift_coeff d2 < drift_coeff d1).
Proof.
  assert (Hstep : forall (frame : Z) (s s' : scene),
             length (x_stars s) = length (y_stars s) ->
             update frame s = Done s' ->
             combine (x_stars s') (y_stars s')
             = if (frame mod 5 =? 0)%Z
               then map drifted (combine (x_stars s) (y_stars s))
               else combine (x_stars s) (y_stars s)).
  { intros frame s s' Hlen Hup.
    destruct (update_stars frame s s' Hlen Hup) as [-> ->].
    apply stars_after_combine. }
  split; [| split; [| split; [| split]]].
  - intros x y. reflexivity.
  - intros frame stars. rewrite drift_closed by apply stars_same_length.
    unfold stars_after, drifted_stars. rewrite combine_fst_snd. reflexivity.
  - exact Hstep.
  - intros f1 f2 s s1 s2 Hlen H1 H2 Hup1 Hup2.
    assert (Hlen1 : length (x_stars s1) = length (y_stars s1)).
    { destruct (update_stars f1 s s1 Hlen Hup1) as [-> ->].
      apply stars_after_length, Hlen. }
    rewrite (Hstep f2 s1 s2 Hlen1 Hup2), (Hstep f1 s s1 Hlen Hup1).
    rewrite H1, H2. reflexivity.
  - exact drift_coeff_decreasing.
Qed.

Lemma star_drift_step_witness :
  combine (x_stars (moved_scene 0 (table_scene [0] [1])))
          (y_stars (moved_scene 0 (table_scene [0] [1])))
  = map drifted (combine [0] [1]) /\
  drift_coeff 2 < drift_coeff 1.
Proof.
  destruct star_drift_step as (_ & _ & Hstep & _ & Hdec).
  split.
  - apply (Hstep 0%Z (table_scene [0] [1]) (moved_scene 0 (table_scene [0] [1]))).
    + reflexivity.
    + apply update_single_star.
  - apply Hdec. lra.
Defined.

(** ** What one call of [update] writes *)

Lemma update_planet_inv (frame : Z) (p p' : planet_entry) :
  update_planet frame p = Done p' ->
  planet_position frame (p_a p) (p_e p) (p_period p) = Done (center (circle p')) /\
  orbit_params p' = orbit_params p /\
  Forall2 (fun m m' => update_moon frame (center (circle p')) m = Done m')
          (planet_moons p) (planet_moons p').
Proof.
  unfold update_planet.
  destruct (planet_position frame (p_a p) (p_e p) (p_period p)) as [[x y] |];
    [| discriminate].
  cbn [bind].
  destruct (for_each (update_moon frame (x, y)) (planet_moons p)) as [ms |] eqn:Hms;
    [| discriminate].
  cbn [bind]. intros H. injection H as <-.
  cbn [circle set_center center planet_moons].
  split; [reflexivity | split; [reflexivity |]].
  apply for_each_Forall2, Hms.
Qed.

Lemma update_planets_inv (frame : Z) (s s' : scene) :
  update frame s = Done s' ->
  Forall2 (fun p p' => update_planet frame p = Done p') (planets s) (planets s').
Proof.
  unfold update. intros H.
  destruct (for_each (update_planet frame) (planets s)) as [ps |] eqn:Hps; [| discriminate].
  cbn [bind] in H.
  destruct (drift frame (x_stars s) (y_stars s)) as [st |]; [| discriminate].
  cbn [bind] in H. injection H as <-. cbn [planets].
  apply for_each_Forall2, Hps.
Qed.

Lemma update_params (frame : Z) (s s' : scene) :
  update frame s = Done s' ->
  map orbit_params (planets s') = map orbit_params (planets s).
Proof.
  intros H. apply update_planets_inv in H.
  induction H as [| p p' ps ps' Hp _ IH]; [reflexivity |].
  cbn [map]. rewrite IH. f_equal. apply update_planet_inv in Hp. apply Hp.
Qed.

Lemma run_params (frames : list Z) :
  forall s s', run frames s = Done s' ->
               map orbit_params (planets s') = map orbit_params (planets s).
Proof.
  induction frames as [| f frames IH]; intros s s' H; cbn [run] in H.
  - injection H as <-. reflexivity.
  - destruct (update f s) as [s1 |] eqn:Hup; [| discriminate]. cbn [bind] in H.
    rewrite (IH _ _ H). apply update_params with f. exact Hup.
Qed.

(** The position of a planet, from its orbit parameters alone. *)
Lemma position_from_params (frame : Z) (ps ps' : list planet_entry) :
  Forall2 (fun p p' => update_planet frame p = Done p') ps ps' ->
  map (fun t : R * R * Z => planet_position frame (fst (fst t)) (snd (fst t)) (snd t))
      (map orbit_params ps)
  = map (fun p' => Done (center (circle p'))) ps'.
Proof.
  induction 1 as [| p p' ps ps' Hp _ IH]; [reflexivity |].
  cbn [map]. rewrite IH. f_equal.
  apply update_planet_inv in Hp. apply Hp.
Qed.

Lemma map_Done_inj {A B : Type} (f : A -> B) (l1 l2 : list A) :
  map (fun x => Done (f x)) l1 = map (fun x => Done (f x)) l2 -> map f l1 = map f l2.
Proof.
  revert l2. induction l1 as [| x l1 IH]; intros [| y l2] H; try discriminate.
  - reflexivity.
  - cbn [map] in H. injection H as Hxy Hl. cbn [map]. rewrite Hxy, (IH _ Hl). reflexivity.
Qed.

Lemma Forall2_from_maps {A B C : Type} (f : A -> outcome C) (g : B -> C)
    (l : list A) (l' : list B) :
  map f l = map (fun y => Done (g y)) l' -> Forall2 (fun x y => f x = Done (g y)) l l'.
Proof.
  revert l'. induction l as [| x l IH]; intros [| y l'] H; try discriminate.
  - constructor.
  - cbn [map] in H. injection H as Hxy Hl. constructor; auto.
Qed.

(** C7: the position the frame updater writes for a planet is the value of
    the orbit model at the frame index and the planet's (a, e, period), which
    the updater leaves unchanged; after any earlier frames it is still the
    value at the parameters the planet started with; and two scenes whose
    planets have the same parameters get the same planet positions at the
    same frame, whatever else they hold. *)
Theorem planet_position_is_pure :
  (forall (frame : Z) (s s' : scene),
      update frame s = Done s' ->
      Forall2 (fun p p' =>
                 planet_position frame (p_a p) (p_e p) (p_period p)
                 = Done (center (circle p')) /\
                 orbit_params p' = orbit_params p)
              (planets s) (planets s')) /\
  (forall (frames : list Z) (frame : Z) (s0 s s' : scene),
      run frames s0 = Done s ->
      update frame s = Done s' ->
      Forall2 (fun p0 p' =>
                 planet_position frame (p_a p0) (p_e p0) (p_period p0)
                 = Done (center (circle p')))
              (planets s0) (planets s')) /\
  (forall (frame : Z) (s1 s2 s1' s2' : scene),
      map orbit_params (planets s1) = map orbit_params (planets s2) ->
      update frame s1 = Done s1' ->
      update frame s2 = Done s2' ->
      map (fun p => center (circle p)) (planets s1')
      = map (fun p => center (circle p)) (planets s2')).
Proof.
  split; [| split].
  - intros frame s s' Hup. apply update_planets_inv in Hup.
    eapply Forall2_impl; [exact Hup |]. intros p p' Hp. cbv beta in Hp.
    apply update_planet_inv in Hp. destruct Hp as (Hpos & Hpar & _). auto.
  - intros frames frame s0 s s' Hrun Hup.
    pose proof (run_params frames s0 s Hrun) as Hpar.
    apply update_planets_inv, position_from_params in Hup.
    rewrite Hpar, map_map in Hup.
    apply Forall2_from_maps in Hup. exact Hup.
  - intros frame s1 s2 s1' s2' Hpar Hup1 Hup2.
    apply update_planets_inv, position_from_params in Hup1, Hup2.
    rewrite Hpar, Hup2 in Hup1.
    symmetry. apply map_Done_inj. exact Hup1.
Qed.

Lemma planet_position_is_pure_witness :
  map (fun p => center (circle p)) (planets (moved_scene 7 (table_scene [] [])))
  = map (fun p => center (circle p))
        (planets (moved_scene 7 (moved_scene 5 (table_scene [0] [1])))).
Proof.
  assert (Hwf : wf_scene (table_scene [0] [1])) by (apply table_scene_wf; reflexivity).
  apply (proj2 (proj2 planet_position_is_pure) 7%Z
               (table_scene [] []) (moved_scene 5 (table_scene [0] [1]))).
  - cbn [moved_scene planets table_scene]. rewrite !map_map. reflexivity.
  - apply update_closed, table_scene_wf. reflexivity.
  - apply update_closed, moved_scene_wf, Hwf.
Defined.

(** ** Exact results of the frame updater *)

Lemma py_div_value (x y v : R) : py_div x y = Done v -> y <> 0 /\ v = x / y.
Proof.
  unfold py_div. destruct (Req_dec_T y 0); [discriminate |].
  intros H. injection H as <-. auto.
Qed.

Lemma np_div_value (x y v : R) : np_div x y = Done v -> y <> 0 /\ v = x / y.
Proof.
  unfold np_div. destruct (Req_dec_T y 0); [discriminate |].
  intros H. injection H as <-. auto.
Qed.

Lemma orbit_angle_value (frame period : Z) (t : R) :
  orbit_angle frame period = Done t -> period <> 0%Z /\ t = angle_at frame period.
Proof.
  unfold orbit_angle. intros H. apply py_div_value in H. destruct H as [Hp ->].
  split; [| reflexivity]. intros ->. apply Hp. reflexivity.
Qed.

Lemma planet_position_value (frame : Z) (a e : R) (period : Z) (xy : R * R) :
  planet_position frame a e period = Done xy ->
  period <> 0%Z /\ 1 + e * cos (angle_at frame period) <> 0 /\
  xy = ellipse_point a e (angle_at frame period).
Proof.
  unfold planet_position.
  destruct (orbit_angle frame period) as [t |] eqn:Ht; [| discriminate].
  apply orbit_angle_value in Ht. destruct Ht as [Hp ->]. cbn [bind].
  destruct (np_div (a * (1 - e ^ 2)) (1 + e * cos (angle_at frame period)))
    as [r |] eqn:Hr; [| discriminate].
  apply np_div_value in Hr. destruct Hr as [Hd ->]. cbn [bind].
  intros H. injection H as <-. auto.
Qed.

Lemma update_moon_value (frame : Z) (xy : R * R) (m m' : moon_entry) :
  update_moon frame xy m = Done m' ->
  moon_period m <> 0%Z /\ m' = moved_moon frame xy m.
Proof.
  unfold update_moon, moon_position. destruct xy as [x y].
  destruct (orbit_angle frame (moon_period m)) as [t |] eqn:Ht; [| discriminate].
  apply orbit_angle_value in Ht. destruct Ht as [Hp ->]. cbn [bind].
  intros H. injection H as <-. auto.
Qed.

Lemma for_each_value {A B : Type} (f : A -> outcome B) (g : A -> B) (l : list A)
    (l' : list B) :
  (forall x y, f x = Done y -> y = g x) -> for_each f l = Done l' -> l' = map g l.
Proof.
  intros Hfg H. apply for_each_Forall2 in H.
  induction H as [| x y l l' Hxy _ IH]; [reflexivity |].
  cbn [map]. rewrite <- IH, <- (Hfg x y Hxy). reflexivity.
Qed.

Lemma update_planet_iff (frame : Z) (p p' : planet_entry) :
  update_planet frame p = Done p' <-> can_update frame p /\ p' = moved_planet frame p.
Proof.
  split.
  - intros H. unfold update_planet in H.
    destruct (planet_position frame (p_a p) (p_e p) (p_period p)) as [[x y] |] eqn:Hpos;
      [| discriminate].
    cbn [bind] in H.
    destruct (for_each (update_moon frame (x, y)) (planet_moons p)) as [ms |] eqn:Hms;
      [| discriminate].
    cbn [bind] in H. injection H as <-.
    pose proof Hpos as Hval. apply planet_position_value in Hval.
    destruct Hval as (_ & _ & Hxy).
    split; [split |].
    + exists (x, y). exact Hpos.
    + apply for_each_Forall2 in Hms. clear - Hms.
      induction Hms as [| m m' l l' Hm _ IH]; constructor; [| exact IH].
      apply update_moon_value in Hm. apply Hm.
    + assert (Hmoons : ms = map (moved_moon frame (x, y)) (planet_moons p)).
      { apply (for_each_value (update_moon frame (x, y))); [| exact Hms].
        intros m m' Hm. apply update_moon_value in Hm. apply Hm. }
      unfold moved_planet. rewrite <- Hxy. cbn [fst snd].
      rewrite Hmoons. reflexivity.
  - intros [[[xy Hpos] Hms] ->]. unfold update_planet, moved_planet.
    rewrite Hpos. cbn [bind]. apply planet_position_value in Hpos.
    destruct Hpos as (_ & _ & ->).
    destruct (ellipse_point (p_a p) (p_e p) (angle_at frame (p_period p))) as [x y].
    cbn [fst snd].
    rewrite (for_each_map _ (moved_moon frame (x, y))); [reflexivity |].
    eapply Forall_impl; [exact Hms |]. intros m Hm. apply update_moon_closed, Hm.
Qed.

Lemma update_planets_value (frame : Z) (ps ps' : list planet_entry) :
  for_each (update_planet frame) ps = Done ps' ->
  Forall (can_update frame) ps /\ ps' = map (moved_planet frame) ps.
Proof.
  intros H. split.
  - apply for_each_Forall2 in H.
    induction H as [| p p' l l' Hp _ IH]; constructor; [| exact IH].
    apply update_planet_iff in Hp. apply Hp.
  - apply (for_each_value (update_planet frame)); [| exact H].
    intros p p' Hp. apply update_planet_iff in Hp. apply Hp.
Qed.

Lemma update_planets_total (frame : Z) (ps : list planet_entry) :
  Forall (can_update frame) ps ->
  for_each (update_planet frame) ps = Done (map (moved_planet frame) ps).
Proof.
  intros H. apply for_each_map. eapply Forall_impl; [exact H |].
  intros p Hp. apply update_planet_iff. auto.
Qed.

Lemma moved_moon_absorb (f g : Z) (xy xy' : R * R) (m : moon_entry) :
  moved_moon f xy (moved_moon g xy' m) = moved_moon f xy m.
Proof. reflexivity. Qed.

Lemma moved_planet_absorb (f g : Z) (p : planet_entry) :
  moved_planet f (moved_planet g p) = moved_planet f p.
Proof.
  unfold moved_planet.
  cbn [circle label p_a p_e p_period planet_moons set_center set_position
       get_radius get_text].
  rewrite map_map. reflexivity.
Qed.

Lemma can_update_moved (f g : Z) (p : planet_entry) :
  can_update f p -> can_update f (moved_planet g p).
Proof.
  intros [Hpos Hms]. split; [exact Hpos |].
  cbn [moved_planet planet_moons]. apply Forall_map.
  eapply Forall_impl; [exact Hms |]. intros m Hm. exact Hm.
Qed.

Lemma update_value (frame : Z) (s s' : scene) :
  update frame s = Done s' ->
  Forall (can_update frame) (planets s) /\
  planets s' = map (moved_planet frame) (planets s) /\
  drift frame (x_stars s) (y_stars s) = Done (x_stars s', y_stars s').
Proof.
  unfold update. intros H.
  destruct (for_each (update_planet frame) (planets s)) as [ps |] eqn:Hps; [| discriminate].
  cbn [bind] in H.
  destruct (drift frame (x_stars s) (y_stars s)) as [[xs ys] |]; [| discriminate].
  cbn [bind fst snd] in H. injection H as <-. cbn [planets x_stars y_stars].
  apply update_planets_value in Hps. destruct Hps as [Hcan ->]. auto.
Qed.

Lemma run_planets (frames : list Z) :
  forall s s', run frames s = Done s' ->
    planets s' = match last frames with
                 | Some f => map (moved_planet f) (planets s)
                 | None => planets s
                 end.
Proof.
  induction frames as [| f frames IH]; intros s s' H; cbn [run] in H.
  - injection H as <-. reflexivity.
  - destruct (update f s) as [s1 |] eqn:Hup; [| discriminate]. cbn [bind] in H.
    apply update_value in Hup. destruct Hup as (_ & Hps & _).
    rewrite (IH _ _ H), Hps. destruct frames as [| g frames]; [reflexivity |].
    change (last (f :: g :: frames)) with (last (g :: frames)).
    destruct (last (g :: frames)) as [h |] eqn:Hl.
    + rewrite map_map. apply map_ext. intros p. apply moved_planet_absorb.
    + rewrite last_None in Hl. discriminate.
Qed.

(** The script's scene after any earlier frames and one more call. *)
Lemma table_tick (stars : list (R * R)) (frames : list Z) (frame : Z) :
  exists s0 s s',
    build_scene planet_data (map fst stars) (map snd stars) = Done s0 /\
    run frames s0 = Done s /\
    update frame s = Done s' /\
    planets s' = map (fun d => moved_planet frame (built_planet d)) planet_data.
Proof.
  destruct (table_run stars frames) as (s0 & s & Hbuild & Hrun & Hwf & _).
  exists s0, s, (moved_scene frame s).
  split; [exact Hbuild | split; [exact Hrun | split; [apply update_closed, Hwf |]]].
  pose proof (run_planets frames s0 s Hrun) as Hps.
  rewrite table_scene_built in Hbuild. injection Hbuild as <-.
  cbn [moved_scene planets]. rewrite Hps. cbn [table_scene planets].
  destruct (last frames) as [g |].
  - rewrite !map_map. apply map_ext. intros d. apply moved_planet_absorb.
  - rewrite map_map. reflexivity.
Qed.

(** ** What a call of [update] keeps *)

Lemma drift_star_length (i : nat) (xs ys xs' ys' : list R) :
  drift_star i xs ys = Done (xs', ys') ->
  length xs' = length xs /\ length ys' = length ys.
Proof.
  unfold drift_star. intros H. bind_inversion H.
  injection H as <- <-. rewrite !length_insert. auto.
Qed.

Lemma drift_loop_length (range : list nat) :
  forall xs ys xs' ys',
    drift_loop range xs ys = Done (xs', ys') ->
    length xs' = length xs /\ length ys' = length ys.
Proof.
  induction range as [| i range IH]; intros xs ys xs' ys' H; cbn [drift_loop] in H.
  - injection H as <- <-. auto.
  - destruct (drift_star i xs ys) as [[xs1 ys1] |] eqn:Hstar; [| discriminate].
    cbn [bind fst snd] in H.
    apply drift_star_length in Hstar. apply IH in H.
    destruct Hstar as [Hx1 Hy1]. destruct H as [Hx Hy]. split; congruence.
Qed.

Lemma drift_length (frame : Z) (xs ys xs' ys' : list R) :
  drift frame xs ys = Done (xs', ys') ->
  length xs' = length xs /\ length ys' = length ys.
Proof.
  unfold drift. destruct (frame mod 5 =? 0)%Z.
  - apply drift_loop_length.
  - intros H. injection H as <- <-. auto.
Qed.

Lemma moved_planet_fixed (frame : Z) (p : planet_entry) :
  planet_fixed (moved_planet frame p) = planet_fixed p.
Proof.
  unfold planet_fixed, moved_planet, orbit_params.
  cbn [circle label p_a p_e p_period planet_moons set_center set_position
       get_radius get_text].
  rewrite map_map. reflexivity.
Qed.

Lemma moved_planets_artist_radii (frame : Z) (ps : list planet_entry) :
  map get_radius (map moon (concat (map planet_moons (map (moved_planet frame) ps))))
  = map get_radius (map moon (concat (map planet_moons ps))).
Proof.
  induction ps as [| p ps IH]; [reflexivity |].
  cbn [map concat]. rewrite !map_app, IH. f_equal.
  cbn [moved_planet planet_moons]. rewrite !map_map. reflexivity.
Qed.

(** X6: a call of the frame updater that returns moves discs, labels and
    stars and changes nothing else: every planet and moon disc keeps its
    radius, every label its text, every planet and moon its orbit parameters,
    the list of artists handed back has the same discs in the same order, and
    the two star arrays keep their lengths. *)
Theorem update_moves_only :
  forall (frame : Z) (s s' : scene),
    update frame s = Done s' ->
    map planet_fixed (planets s') = map planet_fixed (planets s) /\
    map get_radius (returned_artists s') = map get_radius (returned_artists s) /\
    length (x_stars s') = length (x_stars s) /\
    length (y_stars s') = length (y_stars s).
Proof.
  intros frame s s' H. apply update_value in H. destruct H as (_ & Hps & Hdrift).
  split; [| split].
  - rewrite Hps, map_map. apply map_ext. intros p. apply moved_planet_fixed.
  - unfold returned_artists, moons. rewrite Hps, !map_app. f_equal.
    + rewrite !map_map. reflexivity.
    + apply moved_planets_artist_radii.
  - apply drift_length in Hdrift. exact Hdrift.
Qed.

Lemma update_moves_only_witness :
  map planet_fixed (planets (moved_scene 5 (table_scene [0] [1])))
  = map planet_fixed (planets (table_scene [0] [1])) /\
  length (x_stars (moved_scene 5 (table_scene [0] [1]))) = 1%nat.
Proof.
  destruct (update_moves_only 5%Z (table_scene [0] [1]) (moved_scene 5 (table_scene [0] [1])))
    as (Hfix & _ & Hx & _).
  - apply update_closed, table_scene_wf. reflexivity.
  - split; [exact Hfix | exact Hx].
Defined.

(** X5: after a call of the frame updater that returns, the label of every
    planet is anchored on the vertical through the planet's new centre, above
    it by the planet's radius plus 0.1. *)
Theorem label_above_planet :
  forall (frame : Z) (s s' : scene),
    update frame s = Done s' ->
    Forall (fun p' =>
              get_position (label p')
              = (fst (center (circle p')),
                 snd (center (circle p')) + get_radius (circle p') + 0.1))
           (planets s').
Proof.
  intros frame s s' H. apply update_value in H. destruct H as (_ & -> & _).
  apply Forall_map. apply Forall_forall. intros p _. reflexivity.
Qed.

Lemma label_above_planet_witness :
  Forall (fun p' =>
            get_position (label p')
            = (fst (center (circle p')),
               snd (center (circle p')) + get_radius (circle p') + 0.1))
         (planets (moved_scene 3 (table_scene [] []))).
Proof.
  apply (label_above_planet 3%Z (table_scene [] [])).
  apply update_closed, table_scene_wf. reflexivity.
Defined.

(** X7: the planets, labels and moons a call leaves behind depend on the
    frame index only, not on the calls made before.  Calling the updater
    again with the same frame changes nothing when the frame is no multiple of
    5; after any earlier frames, the call for a frame leaves the planet list
    it would have left on the scene before those frames; and on a multiple of
    5, with star arrays of one length, the second call returns and moves stars
    only. *)
Theorem update_idempotent :
  (forall (frame : Z) (s s1 : scene),
      (frame mod 5 <> 0)%Z ->
      update frame s = Done s1 -> update frame s1 = Done s1) /\
  (forall (frames : list Z) (frame : Z) (s s1 s2 s2' : scene),
      run frames s = Done s1 ->
      update frame s1 = Done s2 ->
      update frame s = Done s2' ->
      planets s2 = planets s2') /\
  (forall (frame : Z) (s s1 : scene),
      length (x_stars s) = length (y_stars s) ->
      update frame s = Done s1 ->
      exists s2, update frame s1 = Done s2 /\ planets s2 = planets s1).
Proof.
  assert (Hagain : forall frame s s1,
             update frame s = Done s1 ->
             for_each (update_planet frame) (planets s1) = Done (planets s1)).
  { intros frame s s1 H. apply update_value in H. destruct H as (Hcan & Hps & _).
    rewrite update_planets_total.
    - rewrite Hps, map_map. f_equal. apply map_ext. intros p. apply moved_planet_absorb.
    - rewrite Hps. apply Forall_map. eapply Forall_impl; [exact Hcan |].
      intros p Hp. apply can_update_moved, Hp. }
  split; [| split].
  - intros frame s s1 Hmod H. unfold update.
    rewrite (Hagain frame s s1 H). cbn [bind]. unfold drift.
    apply Z.eqb_neq in Hmod. rewrite Hmod. cbn [bind fst snd].
    destruct s1. reflexivity.
  - intros frames frame s s1 s2 s2' Hrun H2 H2'.
    apply update_value in H2, H2'.
    destruct H2 as (_ & -> & _). destruct H2' as (_ & -> & _).
    rewrite (run_planets frames s s1 Hrun). destruct (last frames) as [g |]; [| reflexivity].
    rewrite map_map. apply map_ext. intros p. apply moved_planet_absorb.
  - intros frame s s1 Hlen H.
    pose proof (Hagain frame s s1 H) as Hps.
    pose proof H as Hv. apply update_value in Hv. destruct Hv as (_ & _ & Hdrift).
    pose proof Hdrift as Hl. apply drift_length in Hl. destruct Hl as [Hx Hy].
    unfold update. rewrite Hps. cbn [bind].
    rewrite drift_closed by congruence. cbn [bind].
    eexists. split; reflexivity.
Qed.

Lemma update_idempotent_witness :
  update 3 (moved_scene 3 (table_scene [0] [1])) = Done (moved_scene 3 (table_scene [0] [1])).
Proof.
  apply (proj1 update_idempotent 3%Z (table_scene [0] [1])).
  - discriminate.
  - apply update_closed, table_scene_wf. reflexivity.
Defined.

(** ** Geometry of the orbit model *)

Section Ellipse.

Variables a e t : R.
Hypothesis He : 0 <= e < 1.
Hypothesis Ha : 0 <= a.

Let c : R := cos t.
Let s : R := sin t.
Let D : R := 1 + e * cos t.
Let r : R := a * (1 - e ^ 2) / (1 + e * cos t).

Lemma radial_denominator : 1 - e <= D <= 1 + e.
Proof.
  unfold D. pose proof (COS_bound t) as [Hlo Hhi].
  assert (0 <= e * (cos t + 1)) by (apply Rmult_le_pos; lra).
  assert (0 <= e * (1 - cos t)) by (apply Rmult_le_pos; lra).
  lra.
Qed.

Lemma radial_times_denominator : r * D = a * (1 - e ^ 2).
Proof.
  pose proof radial_denominator as HD. unfold r, D in *. field. lra.
Qed.

Lemma radial_bounds : a * (1 - e) <= r <= a * (1 + e).
Proof.
  pose proof radial_denominator as [Hlo Hhi].
  pose proof radial_times_denominator as Hr.
  assert (HD : 0 < D) by lra.
  split.
  - apply Rmult_le_reg_r with D; [exact HD |]. rewrite Hr.
    assert (0 <= a * (1 - e) * ((1 + e) - D)).
    { apply Rmult_le_pos; [apply Rmult_le_pos |]; lra. }
    lra.
  - apply Rmult_le_reg_r with D; [exact HD |]. rewrite Hr.
    assert (0 <= a * (1 + e) * (D - (1 - e))).
    { apply Rmult_le_pos; [apply Rmult_le_pos |]; lra. }
    lra.
Qed.

Lemma radial_nonneg : 0 <= r.
Proof.
  pose proof radial_bounds as [Hlo _].
  assert (0 <= a * (1 - e)) by (apply Rmult_le_pos; lra). lra.
Qed.

Lemma radial_cos_bound : - r <= r * c <= r.
Proof.
  pose proof radial_nonneg as Hr. pose proof (COS_bound t) as [Hlo Hhi]. fold c in Hlo, Hhi.
  assert (0 <= r * (c + 1)) by (apply Rmult_le_pos; lra).
  assert (0 <= r * (1 - c)) by (apply Rmult_le_pos; lra).
  lra.
Qed.

Lemma radial_sin_bound : - r <= r * s <= r.
Proof.
  pose proof radial_nonneg as Hr. pose proof (SIN_bound t) as [Hlo Hhi]. fold s in Hlo, Hhi.
  assert (0 <= r * (s + 1)) by (apply Rmult_le_pos; lra).
  assert (0 <= r * (1 - s)) by (apply Rmult_le_pos; lra).
  lra.
Qed.

(** The planet stays in the square of half-width [a(1+2e)] about the origin. *)
Lemma ellipse_point_box :
  - (a * (1 + 2 * e)) <= fst (ellipse_point a e t) <= a * (1 + 2 * e) /\
  - (a * (1 + 2 * e)) <= snd (ellipse_point a e t) <= a * (1 + 2 * e).
Proof.
  pose proof radial_bounds as [_ Hhi].
  pose proof radial_cos_bound as [Hc1 Hc2].
  pose proof radial_sin_bound as [Hs1 Hs2].
  assert (Hae : 0 <= a * e) by (apply Rmult_le_pos; lra).
  unfold ellipse_point. cbn [fst snd]. fold r c s. lra.
Qed.

(** The planet stays at distance at least [a(1-2e)] from the origin. *)
Lemma ellipse_point_far :
  e <= 1 / 2 ->
  (a * (1 - 2 * e)) ^ 2 <= fst (ellipse_point a e t) ^ 2 + snd (ellipse_point a e t) ^ 2.
Proof.
  intros Hhalf.
  pose proof radial_bounds as [Hlo _].
  pose proof radial_cos_bound as [_ Hc2].
  pose proof radial_nonneg as Hr.
  assert (Hae : 0 <= a * e) by (apply Rmult_le_pos; lra).
  assert (Hcs : s ^ 2 + c ^ 2 = 1).
  { pose proof (sin2_cos2 t) as H. unfold Rsqr in H. unfold s, c. lra. }
  unfold ellipse_point. cbn [fst snd]. fold r c s.
  assert (Hsq : (r * c - a * e) ^ 2 + (r * s) ^ 2
                = (r - a * e) ^ 2 + 2 * (a * e) * (r - r * c)).
  { replace ((r * c - a * e) ^ 2 + (r * s) ^ 2)
      with (r ^ 2 * (s ^ 2 + c ^ 2) - 2 * (a * e) * (r * c) + (a * e) ^ 2) by ring.
    rewrite Hcs. ring. }
  rewrite Hsq.
  assert (0 <= 2 * (a * e) * (r - r * c)).
  { apply Rmult_le_pos; [apply Rmult_le_pos |]; lra. }
  assert (Hbase : 0 <= a * (1 - 2 * e)) by (apply Rmult_le_pos; lra).
  assert ((a * (1 - 2 * e)) ^ 2 <= (r - a * e) ^ 2).
  { apply pow_incr. split; [exact Hbase | lra]. }
  lra.
Qed.

(** The planet's trajectory: the ellipse with semi-axes [a] and
    [a*sqrt(1-e^2)] whose centre is [(-2ae, 0)]. *)
Lemma ellipse_point_on_ellipse :
  on_ellipse (- (2 * a * e)) a (a * sqrt (1 - e ^ 2)) (ellipse_point a e t).
Proof.
  pose proof radial_denominator as [HDlo _].
  assert (HD : 1 + e * c <> 0) by (fold c in D; unfold D in HDlo; fold c in HDlo; lra).
  assert (Hcs : s ^ 2 = 1 - c ^ 2).
  { pose proof (sin2_cos2 t) as H. unfold Rsqr in H. unfold s, c. lra. }
  assert (Hb : (a * sqrt (1 - e ^ 2)) ^ 2 = a ^ 2 * (1 - e ^ 2)).
  { rewrite Rpow_mult_distr, pow2_sqrt by nra. reflexivity. }
  unfold on_ellipse, ellipse_point. cbn [fst snd]. fold c s. rewrite Hb.
  rewrite (Rpow_mult_distr _ s), Hcs. field. exact HD.
Qed.

End Ellipse.

(** ** The drawn orbit curves *)





(** ** Where the planets go *)

(** X2: for a period other than 0 and 0 <= e < 1 the planet position is a
    point of the ellipse with semi-axes a and a*sqrt(1-e^2) centred at
    (-2*a*e, 0), which is the drawn orbit curve moved by a*e towards
    negative x: the planet moved back by a*e is on the drawn curve.  With
    e > 0 and a > 0 the planet itself, at frame 0, is not on the drawn
    curve. *)
Theorem planet_on_shifted_ellipse :
  (forall (frame : Z) (a e : R) (period : Z),
      period <> 0%Z -> 0 <= e < 1 ->
      exists xy,
        planet_position frame a e period = Done xy /\
        on_ellipse (- (2 * a * e)) a (a * sqrt (1 - e ^ 2)) xy /\
        on_ellipse (- (a * e)) a (a * sqrt (1 - e ^ 2)) (fst xy + a * e, snd xy)) /\
  (forall (a e : R) (period : Z),
      period <> 0%Z -> 0 < e < 1 -> 0 < a ->
      exists xy,
        planet_position 0 a e period = Done xy /\
        ~ on_ellipse (- (a * e)) a (a * sqrt (1 - e ^ 2)) xy).
Proof.
  split.
  - intros frame a e period Hp He.
    exists (ellipse_point a e (angle_at frame period)).
    split; [apply planet_position_closed; [exact Hp | lra] |].
    pose proof (ellipse_point_on_ellipse a e (angle_at frame period) He) as Hon.
    split; [exact Hon |].
    unfold on_ellipse in *. cbn [fst snd].
    replace (fst (ellipse_point a e (angle_at frame period)) + a * e - - (a * e))
      with (fst (ellipse_point a e (angle_at frame period)) - - (2 * a * e)) by ring.
    exact Hon.
  - intros a e period Hp He Ha.
    exists (a * (1 - e) - a * e, 0).
    split.
    + rewrite planet_position_closed by (try assumption; lra).
      rewrite angle_at_frame_zero, ellipse_point_perihelion by lra. reflexivity.
    + unfold on_ellipse. cbn [fst snd]. intros H.
      assert (Hb : (a * sqrt (1 - e ^ 2)) ^ 2 = a ^ 2 * (1 - e ^ 2)).
      { rewrite Rpow_mult_distr, pow2_sqrt by nra. reflexivity. }
      rewrite Hb in H.
      assert (Hpos : 0 < a ^ 2 * (1 - e ^ 2) * (a ^ 2 * (e * (2 - e)))).
      { repeat apply Rmult_lt_0_compat; nra. }
      replace (a ^ 2 * (1 - e ^ 2) * (a ^ 2 * (e * (2 - e))))
        with (a ^ 2 * (a ^ 2 * (1 - e ^ 2))
              - (a ^ 2 * (1 - e ^ 2) * (a * (1 - e) - a * e - - (a * e)) ^ 2
                 + a ^ 2 * 0 ^ 2)) in Hpos by ring.
      rewrite H in Hpos. lra.
Qed.

Lemma planet_on_shifted_ellipse_witness :
  exists xy,
    planet_position 10 3 0.02 365 = Done xy /\
    on_ellipse (- (2 * 3 * 0.02)) 3 (3 * sqrt (1 - 0.02 ^ 2)) xy.
Proof.
  destruct (proj1 planet_on_shifted_ellipse 10%Z 3 0.02 365%Z) as (xy & Hpos & Hon & _).
  - discriminate.
  - lra.
  - exists xy. split; assumption.
Defined.

(** Each row of the table: the orbit, with the moon orbit around it, fits
    the axis limits, and clears the largest glow disc of the Sun. *)
Lemma table_extent :
  Forall (fun d =>
            0 <= d_e d <= 1 / 2 /\
            0 <= d_r d / (1 - d_e d) /\
            0 <= d_size d /\
            d_r d / (1 - d_e d) * (1 + 2 * d_e d) + d_size d * 2.5 < 11 /\
            0.85 + d_size d < d_r d / (1 - d_e d) * (1 - 2 * d_e d))
         planet_data.
Proof. unfold planet_data. repeat (constructor; [table_row |]). constructor. Qed.

Lemma moon_offset_bound (x radius t : R) :
  0 <= radius -> x - radius <= x + radius * cos t <= x + radius /\
                 x - radius <= x + radius * sin t <= x + radius.
Proof.
  intros Hr. pose proof (COS_bound t) as [Hc1 Hc2]. pose proof (SIN_bound t) as [Hs1 Hs2].
  assert (0 <= radius * (cos t + 1)) by (apply Rmult_le_pos; lra).
  assert (0 <= radius * (1 - cos t)) by (apply Rmult_le_pos; lra).
  assert (0 <= radius * (sin t + 1)) by (apply Rmult_le_pos; lra).
  assert (0 <= radius * (1 - sin t)) by (apply Rmult_le_pos; lra).
  lra.
Qed.

(** X3: on the script's scene, after any earlier frames, a call of the frame
    updater returns and leaves the centre of every planet and of every moon
    strictly inside the axis limits (-11, 11) x (-11, 11). *)
Theorem planets_and_moons_visible :
  forall (stars : list (R * R)) (frames : list Z) (frame : Z),
    exists s0 s s',
      build_scene planet_data (map fst stars) (map snd stars) = Done s0 /\
      run frames s0 = Done s /\
      update frame s = Done s' /\
      Forall (fun p' =>
                visible (center (circle p')) /\
                Forall (fun m' => visible (center (moon m'))) (planet_moons p'))
             (planets s').
Proof.
  intros stars frames frame.
  destruct (table_tick stars frames frame) as (s0 & s & s' & Hbuild & Hrun & Hup & Hps).
  exists s0, s, s'. split; [exact Hbuild | split; [exact Hrun | split; [exact Hup |]]].
  rewrite Hps. apply Forall_map.
  eapply Forall_impl; [exact table_extent |].
  intros d (He & Ha & Hsize & Hfit & _). cbv beta.
  pose proof (ellipse_point_box (d_r d / (1 - d_e d)) (d_e d)
                (angle_at frame (d_period d)) ltac:(lra) Ha) as [Hx Hy].
  unfold moved_planet, built_planet.
  cbn [circle label p_a p_e p_period planet_moons set_center center].
  destruct (ellipse_point (d_r d / (1 - d_e d)) (d_e d) (angle_at frame (d_period d)))
    as [x y].
  cbn [fst snd] in Hx, Hy |- *.
  split.
  - unfold visible, xlim, ylim. cbn [fst snd]. lra.
  - apply Forall_map. unfold build_moons. apply Forall_map. apply Forall_forall.
    intros j _. cbn [moved_moon moon moon_orbit_radius moon_period set_center center].
    set (t := angle_at frame (20 * (Z.of_nat j + 1))).
    destruct (moon_offset_bound x (d_size d * 2.5) t ltac:(lra)) as [Hmx _].
    destruct (moon_offset_bound y (d_size d * 2.5) t ltac:(lra)) as [_ Hmy].
    unfold visible, xlim, ylim. cbn [fst snd]. lra.
Qed.

(** X4: on the script's scene, after any earlier frames, a call of the frame
    updater returns and leaves every planet disc clear of the Sun and of its
    three glow discs: the distance between the centres exceeds the sum of the
    radii. *)
Theorem planets_clear_of_sun :
  forall (stars : list (R * R)) (frames : list Z) (frame : Z),
    exists s0 s s',
      build_scene planet_data (map fst stars) (map snd stars) = Done s0 /\
      run frames s0 = Done s /\
      update frame s = Done s' /\
      Forall (fun p' =>
                Forall (fun disc =>
                          get_radius disc + get_radius (circle p')
                          < dist (center (circle p')) (center disc))
                       sun_discs)
             (planets s').
Proof.
  intros stars frames frame.
  destruct (table_tick stars frames frame) as (s0 & s & s' & Hbuild & Hrun & Hup & Hps).
  exists s0, s, s'. split; [exact Hbuild | split; [exact Hrun | split; [exact Hup |]]].
  rewrite Hps. apply Forall_map.
  eapply Forall_impl; [exact table_extent |].
  intros d (He & Ha & Hsize & _ & Hclear). cbv beta.
  pose proof (ellipse_point_far (d_r d / (1 - d_e d)) (d_e d)
                (angle_at frame (d_period d)) ltac:(lra) Ha ltac:(lra)) as Hfar.
  unfold moved_planet, built_planet.
  cbn [circle label p_a p_e p_period planet_moons set_center center get_radius].
  destruct (ellipse_point (d_r d / (1 - d_e d)) (d_e d) (angle_at frame (d_period d)))
    as [x y].
  cbn [fst snd] in Hfar.
  assert (Hdist : d_r d / (1 - d_e d) * (1 - 2 * d_e d) <= dist (x, y) (0, 0)).
  { unfold dist. cbn [fst snd].
    replace ((x - 0) ^ 2 + (y - 0) ^ 2) with (x ^ 2 + y ^ 2) by ring.
    rewrite <- (sqrt_pow2 (d_r d / (1 - d_e d) * (1 - 2 * d_e d))) by lra.
    apply sqrt_le_1_alt. exact Hfar. }
  unfold sun_discs, glow_radius, sun_radius. cbn [map].
  repeat (constructor; [cbn [get_radius center]; lra |]). constructor.
Qed.

(** ** The star field over a run *)

(** X8: with star arrays of one length, after a run of calls that all
    return, the star field is the initial one with the drift step applied
    once for each call whose frame is a multiple of 5, every application
    starting from the result of the one before; no star is added or removed. *)
Theorem stars_after_run :
  forall (frames : list Z) (s s' : scene),
    length (x_stars s) = length (y_stars s) ->
    run frames s = Done s' ->
    combine (x_stars s') (y_stars s')
    = Nat.iter (drift_calls frames) (map drifted) (combine (x_stars s) (y_stars s)) /\
    length (x_stars s') = length (x_stars s) /\
    length (y_stars s') = length (x_stars s).
Proof.
  induction frames as [| f frames IH]; intros s s' Hlen H; cbn [run] in H.
  - injection H as <-. cbn [drift_calls Nat.iter]. auto.
  - destruct (update f s) as [s1 |] eqn:Hup; [| discriminate]. cbn [bind] in H.
    pose proof (update_stars f s s1 Hlen Hup) as [Hx Hy].
    pose proof (stars_after_combine f (x_stars s) (y_stars s)) as Hc.
    rewrite <- Hx, <- Hy in Hc.
    pose proof (stars_after_length f (x_stars s) (y_stars s) Hlen) as Hl.
    rewrite <- Hx, <- Hy in Hl.
    assert (Hx1 : length (x_stars s1) = length (x_stars s)).
    { apply update_value in Hup. destruct Hup as (_ & _ & Hd).
      apply drift_length in Hd. apply Hd. }
    destruct (IH s1 s' Hl H) as (Hstars & Hlx & Hly).
    split; [| split; congruence].
    rewrite Hstars, Hc. cbn [drift_calls].
    destruct (f mod 5 =? 0)%Z.
    + change (1 + drift_calls frames)%nat with (S (drift_calls frames)).
      rewrite Nat.iter_succ_r. reflexivity.
    + reflexivity.
Qed.

Lemma stars_after_run_witness :
  exists s',
    run [0; 1; 5]%Z (table_scene [0] [1]) = Done s' /\
    combine (x_stars s') (y_stars s') = map drifted (map drifted [(0, 1)]).
Proof.
  destruct (run_total [0; 1; 5]%Z (table_scene [0] [1])) as (s' & Hrun & _).
  - apply table_scene_wf. reflexivity.
  - exists s'. split; [exact Hrun |].
    apply (stars_after_run [0; 1; 5]%Z (table_scene [0] [1]) s' eq_refl Hrun).
Defined.

(** ** One step of the star drift *)

Lemma drift_coeff_bounds (d : R) : 0 <= d -> -0.001 < drift_coeff d <= 0.12.
Proof.
  intros Hd. rewrite drift_coeff_split by exact Hd.
  assert (Hpos : 0 < / (d + 0.1)) by (apply Rinv_0_lt_compat; lra).
  assert (Hle : / (d + 0.1) <= / 0.1).
  { apply Rinv_le_contravar; lra. }
  assert (H10 : 0.1 * / 0.1 = 1) by (apply Rinv_r; lra).
  lra.
Qed.

Lemma cross_term_bound (k x y : R) :
  -0.12 <= k <= 0.12 ->
  - (0.06 * (x ^ 2 + y ^ 2)) <= k * x * y <= 0.06 * (x ^ 2 + y ^ 2).
Proof.
  intros [Hlo Hhi].
  assert (H1 : 0 <= (0.12 - k) * (x + y) ^ 2) by (apply Rmult_le_pos; [lra | apply pow2_ge_0]).
  assert (H2 : 0 <= (0.12 + k) * (x - y) ^ 2) by (apply Rmult_le_pos; [lra | apply pow2_ge_0]).
  assert (H3 : 0 <= (0.12 - k) * (x - y) ^ 2) by (apply Rmult_le_pos; [lra | apply pow2_ge_0]).
  assert (H4 : 0 <= (0.12 + k) * (x + y) ^ 2) by (apply Rmult_le_pos; [lra | apply pow2_ge_0]).
  split; nra.
Qed.

(** X9: one drift step keeps the quadratic form x^2 + y^2 - k*x*y of a
    star, k being the coefficient at its distance before the step; since
    -0.001 < k <= 0.12, the squared distance from the origin after the step
    is within the factors 0.94/1.06 and 1.06/0.94 of the one before: a step
    neither throws a star outwards nor collapses it to the centre. *)
Theorem drift_step_bounded :
  forall x y : R,
    let k := drift_coeff (sqrt (x ^ 2 + y ^ 2)) in
    let x' := fst (drifted (x, y)) in
    let y' := snd (drifted (x, y)) in
    x' ^ 2 + y' ^ 2 - k * x' * y' = x ^ 2 + y ^ 2 - k * x * y /\
    -0.001 < k <= 0.12 /\
    0.94 * (x' ^ 2 + y' ^ 2) <= 1.06 * (x ^ 2 + y ^ 2) /\
    0.94 * (x ^ 2 + y ^ 2) <= 1.06 * (x' ^ 2 + y' ^ 2).
Proof.
  intros x y k x' y'.
  assert (Hq : x' ^ 2 + y' ^ 2 - k * x' * y' = x ^ 2 + y ^ 2 - k * x * y).
  { unfold x', y', drifted. cbn [fst snd]. fold k. ring. }
  assert (Hk : -0.001 < k <= 0.12) by (apply drift_coeff_bounds, sqrt_pos).
  pose proof (cross_term_bound k x y ltac:(lra)) as [Ha1 Ha2].
  pose proof (cross_term_bound k x' y' ltac:(lra)) as [Hb1 Hb2].
  split; [exact Hq | split; [exact Hk |]]. split; lra.
Qed.

(** X10: a star at distance exactly 12 from the origin is left where it is
    by the drift step; for a star nearer than 12 the coefficient is positive
    (at most 0.12), for a star further than 12 it is negative (above -0.001),
    so the two groups turn in opposite directions. *)
Theorem drift_turning_circle :
  (forall x y : R, sqrt (x ^ 2 + y ^ 2) = 12 -> drifted (x, y) = (x, y)) /\
  (forall d : R, 0 <= d < 12 -> 0 < drift_coeff d <= 0.12) /\
  (forall d : R, 12 < d -> -0.001 < drift_coeff d < 0).
Proof.
  split; [| split].
  - intros x y Hd. unfold drifted, drift_coeff. cbn [fst snd]. rewrite Hd.
    replace (12 - 12) with 0 by lra. unfold Rdiv. f_equal; ring.
  - intros d [H0 H12]. split; [| apply drift_coeff_bounds, H0].
    unfold drift_coeff, Rdiv.
    apply Rmult_lt_0_compat; [lra | apply Rinv_0_lt_compat; lra].
  - intros d H12. split; [apply drift_coeff_bounds; lra |].
    unfold drift_coeff, Rdiv.
    assert (Hi : 0 < / (d + 0.1)) by (apply Rinv_0_lt_compat; lra).
    assert (0 < (0.001 * (d - 12)) * / (d + 0.1)) by (apply Rmult_lt_0_compat; lra).
    lra.
Qed.

Lemma drift_turning_circle_witness :
  drifted (7.2, 9.6) = (7.2, 9.6) /\ 0 < drift_coeff 5 <= 0.12 /\ -0.001 < drift_coeff 13 < 0.
Proof.
  destruct drift_turning_circle as (Hfix & Hin & Hout).
  split; [| split].
  - apply Hfix. apply sqrt_of_square; lra.
  - apply Hin. lra.
  - apply Hout. lra.
Defined.

(** ** Outcome of the scene builder *)







(** ** Mirrored orbits *)

Lemma angle_at_opp_period (frame period : Z) :
  period <> 0%Z -> angle_at frame (- period) = - angle_at frame period.
Proof.
  intros Hp. unfold angle_at. rewrite opp_IZR. field. apply IZR_nonzero, Hp.
Qed.

Lemma angle_at_opp_frame (frame period : Z) :
  period <> 0%Z -> angle_at (- frame) period = - angle_at frame period.
Proof.
  intros Hp. unfold angle_at. rewrite opp_IZR. field. apply IZR_nonzero, Hp.
Qed.

Lemma ellipse_at_opposite_angle (a e t : R) :
  outcome_map mirror
    (r <- np_div (a * (1 - e ^ 2)) (1 + e * cos t) ;;
     Done (r * cos t - a * e, r * sin t))
  = (r <- np_div (a * (1 - e ^ 2)) (1 + e * cos (- t)) ;;
     Done (r * cos (- t) - a * e, r * sin (- t))).
Proof.
  rewrite cos_neg, sin_neg. unfold np_div.
  destruct (Req_dec_T (1 + e * cos t) 0); [reflexivity |].
  cbn [bind outcome_map]. unfold mirror. cbn [fst snd]. f_equal. f_equal. ring.
Qed.

(** X12: the orbit model run with the period negated, or at the negated
    frame, gives the mirror image in the x axis of the position it gives with
    the period and the frame as they are (and the same fault when it gives
    none): a negative period turns the planet the other way round the same
    trajectory. *)
Theorem negative_period_mirrors :
  (forall (frame : Z) (a e : R) (period : Z),
      planet_position frame a e (- period)
      = outcome_map mirror (planet_position frame a e period)) /\
  (forall (frame : Z) (a e : R) (period : Z),
      planet_position (- frame) a e period
      = outcome_map mirror (planet_position frame a e period)).
Proof.
  split; intros frame a e period; unfold planet_position;
    (destruct (Z.eq_dec period 0%Z) as [-> | Hp];
     [ cbn [Z.opp]; rewrite !orbit_angle_zero; reflexivity |]).
  - rewrite !orbit_angle_nonzero by lia. cbn [bind].
    rewrite angle_at_opp_period by exact Hp. symmetry. apply ellipse_at_opposite_angle.
  - rewrite !orbit_angle_nonzero by exact Hp. cbn [bind].
    rewrite angle_at_opp_frame by exact Hp. symmetry. apply ellipse_at_opposite_angle.
Qed.


(** ** Moons about their parent *)

Lemma offset_norm (radius t : R) :
  sqrt ((radius * cos t) ^ 2 + (radius * sin t) ^ 2) = Rabs radius.
Proof.
  replace ((radius * cos t) ^ 2 + (radius * sin t) ^ 2)
    with (Rsqr radius * (Rsqr (sin t) + Rsqr (cos t))) by (unfold Rsqr; ring).
  rewrite sin2_cos2, Rmult_1_r. apply sqrt_Rsqr_abs.
Qed.

(** C4, as the specification states it, fails on the values the program
    stores.  At frame 0 the Earth is put at (2.938775510204082, 0.0) and its
    moon, of orbit radius 0.13*2.5, at x + radius*1.0 rounded to a double;
    the distance between the two stored points is then not the stored orbit
    radius (0.32500000000000018 against 0.32500000000000001). *)
Lemma earth_moon_distance_rounded :
  exists p m : float * float,
    F64.planet_position 0 (F64.semi_major 3.0 0.02) 0.02 365 = Some p /\
    F64.moon_position 0 p (F64.moon_orbit_radius 0.13) 20 = Some m /\
    ~ (F64.sq_dist m p
       == F64.to_Q (F64.moon_orbit_radius 0.13) * F64.to_Q (F64.moon_orbit_radius 0.13))%Q.
Proof.
  eexists. eexists.
  split; [vm_compute; reflexivity |].
  split; [vm_compute; reflexivity |].
  intros H. apply Qeq_bool_iff in H. vm_compute in H. discriminate.
Qed.

(** C4 (amended): for every planet, every moon of that planet and every
    frame f, the moon position written in a tick is the parent planet's
    position written earlier in that same tick, never a stale one, plus the
    offset (R*cos(t), R*sin(t)), where R is the moon's constant orbit radius
    and t = 2*pi*f/moon_period; in exact real arithmetic that offset has
    Euclidean length |R|, which is R on the script's scene, where every orbit
    radius is positive and every call returns. *)
Theorem moon_offset_from_parent :
  (forall (frame : Z) (s s' : scene),
      update frame s = Done s' ->
      Forall2 (fun p p' =>
                 planet_position frame (p_a p) (p_e p) (p_period p)
                 = Done (center (circle p')) /\
                 Forall2 (fun m m' =>
                            let radius := moon_orbit_radius m in
                            let t := angle_at frame (moon_period m) in
                            moon_orbit_radius m' = radius /\
                            center (moon m')
                            = (fst (center (circle p')) + radius * cos t,
                               snd (center (circle p')) + radius * sin t) /\
                            sqrt ((radius * cos t) ^ 2 + (radius * sin t) ^ 2)
                            = Rabs radius)
                         (planet_moons p) (planet_moons p'))
              (planets s) (planets s')) /\
  (forall (stars : list (R * R)) (frames : list Z) (frame : Z),
      exists s0 s s',
        build_scene planet_data (map fst stars) (map snd stars) = Done s0 /\
        run frames s0 = Done s /\
        update frame s = Done s' /\
        Forall (fun p' =>
                  Forall (fun m' =>
                            let radius := moon_orbit_radius m' in
                            0 < radius /\
                            exists t,
                              center (moon m')
                              = (fst (center (circle p')) + radius * cos t,
                                 snd (center (circle p')) + radius * sin t) /\
                              sqrt ((radius * cos t) ^ 2 + (radius * sin t) ^ 2) = radius)
                         (planet_moons p'))
               (planets s')).
Proof.
  split.
  - intros frame s s' Hup. apply update_planets_inv in Hup.
    eapply Forall2_impl; [exact Hup |]. intros p p' Hp. cbv beta in Hp.
    apply update_planet_inv in Hp. destruct Hp as (Hpos & _ & Hms).
    split; [exact Hpos |].
    eapply Forall2_impl; [exact Hms |]. intros m m' Hm. cbv beta in Hm.
    apply update_moon_value in Hm. destruct Hm as [_ ->]. cbv zeta.
    split; [reflexivity | split; [reflexivity | apply offset_norm]].
  - intros stars frames frame.
    destruct (table_tick stars frames frame) as (s0 & s & s' & Hbuild & Hrun & Hup & Hps).
    exists s0, s, s'. split; [exact Hbuild | split; [exact Hrun | split; [exact Hup |]]].
    rewrite Hps. apply Forall_map.
    eapply Forall_impl; [exact table_radius |]. intros d [_ Hsize]. cbv beta.
    unfold moved_planet, built_planet.
    cbn [circle label p_a p_e p_period planet_moons set_center center].
    apply Forall_map. unfold build_moons. apply Forall_map. apply Forall_forall.
    intros j _. cbv zeta.
    cbn [moved_moon moon moon_orbit_radius moon_period set_center center].
    split; [lra |].
    exists (angle_at frame (20 * (Z.of_nat j + 1))).
    split; [reflexivity |].
    rewrite offset_norm. apply Rabs_pos_eq. lra.
Qed.

Lemma moon_offset_from_parent_witness :
  Forall2 (fun p p' =>
             planet_position 3 (p_a p) (p_e p) (p_period p) = Done (center (circle p')) /\
             Forall2 (fun m m' =>
                        let radius := moon_orbit_radius m in
                        let t := angle_at 3 (moon_period m) in
                        moon_orbit_radius m' = radius /\
                        center (moon m')
                        = (fst (center (circle p')) + radius * cos t,
                           snd (center (circle p')) + radius * sin t) /\
                        sqrt ((radius * cos t) ^ 2 + (radius * sin t) ^ 2)
                        = Rabs radius)
                     (planet_moons p) (planet_moons p'))
          (planets (table_scene [] []))
          (planets (moved_scene 3 (table_scene [] []))).
Proof.
  apply (proj1 moon_offset_from_parent 3%Z (table_scene [] [])).
  apply update_closed, table_scene_wf. reflexivity.
Defined.
